(** * A shallow embedding of the voice-agent client (src/App.tsx and its
      sibling variant) and the properties of its playback scheduler, its
      session controller and its audio codec.

    Conventions of the embedding.

    - A JavaScript [number] holding a time in seconds is an exact rational
      ([Q]); the scheduler only adds and takes maxima, and the embedding
      makes each addition without rounding.  The properties of the cursor
      are stated with the scheduler's own additions, in the order in which
      it makes them, and with the order of numbers; where a sum is
      regrouped, the statement says that it is one of exact arithmetic.
    - The component's [useRef] cells and [useState] cells are the fields of
      one record, [World]; a state setter stores the value the next render
      will show.
    - The calls into the browser and the SDK that the properties speak of
      are recorded, in order, in the [trace] field.
    - An [async] function is split at each [await] into the code that runs
      before the suspension and the code that runs when the awaited promise
      settles, so that other handlers can be run in between. *)

From Stdlib Require Import ZArith QArith Qminmax Qabs Qround Lqa Lia.
From Stdlib Require Import List Bool String Ascii.
Import ListNotations.

(* ================================================================== *)
(** * utils/audio: the PCM encoder and the audio decoder               *)
(* ================================================================== *)

Module Audio.

(** The file utils/audio, which both variants of the application import
    [decode], [decodeAudioData] and [createBlob] from, is not among the
    sources.  Every definition of this module is modelled from the
    specification, sections 3 and 4.3.

    A sample is a rational: every finite floating-point sample is one, and
    scaling by the power of two 32768 and truncating are exact on them. *)

Local Open Scope Z_scope.

(** ** Quantisation to signed 16-bit integers *)

Definition clamp (lo hi z : Z) : Z := Z.max lo (Z.min hi z).

(** Conversion of a number to an integer, towards zero. *)
Definition Qtrunc (q : Q) : Z := Z.quot (Qnum q) (Zpos (Qden q)).

(** Modelled from the spec: the loop of createBlob (utils/audio, missing),
    which "clamps/scales each [sample] to the signed 16-bit integer range". *)
Definition toInt16 (s : Q) : Z :=
  clamp (-32768) 32767 (Qtrunc (s * 32768)%Q).

(** Modelled from the spec: the loop of decodeAudioData (utils/audio,
    missing), the "inverse of the above". *)
Definition fromInt16 (z : Z) : Q := (inject_Z z / 32768)%Q.

(** ** Little-endian packing; a byte is an integer in [0, 256) *)

Definition is_byte (b : Z) : Prop := 0 <= b < 256.

Definition int16_bytes (z : Z) : list Z :=
  let u := z mod 65536 in [u mod 256; u / 256].

Definition bytes_int16 (lo hi : Z) : Z :=
  let u := lo + 256 * hi in
  if u <? 32768 then u else u - 65536.

(** Modelled from the spec: the byte view of createBlob's Int16Array
    (utils/audio, missing), which "packs little-endian". *)
Definition packLE (zs : list Z) : list Z := flat_map int16_bytes zs.

(** Modelled from the spec: the Int16Array view of decodeAudioData's bytes
    (utils/audio, missing), "raw 16-bit little-endian PCM".  A byte sequence
    of odd length is not a sequence of 16-bit samples. *)
Fixpoint unpackLE (bs : list Z) : option (list Z) :=
  match bs with
  | [] => Some []
  | lo :: hi :: rest =>
      match unpackLE rest with
      | Some zs => Some (bytes_int16 lo hi :: zs)
      | None => None
      end
  | _ :: [] => None
  end.

(** ** Base64 (RFC 4648, with padding) *)

Definition alphabet : string :=
  "ABCDEFGHIJKLMNOPQRSTUVWXYZabcdefghijklmnopqrstuvwxyz0123456789+/".

Definition pad : ascii := "="%char.

Definition b64_char (n : Z) : ascii :=
  match String.get (Z.to_nat n) alphabet with
  | Some c => c
  | None => pad
  end.

Fixpoint index_from (i : Z) (c : ascii) (s : string) : option Z :=
  match s with
  | EmptyString => None
  | String d s' => if Ascii.eqb c d then Some i else index_from (i + 1) c s'
  end.

Definition b64_index (c : ascii) : option Z := index_from 0 c alphabet.

(** Modelled from the spec: the base64 step of createBlob (utils/audio,
    missing), which "base64-encodes" the packed bytes. *)
Fixpoint encode (bs : list Z) : string :=
  match bs with
  | [] => EmptyString
  | [a] =>
      String (b64_char (a / 4))
        (String (b64_char (a mod 4 * 16))
           (String pad (String pad EmptyString)))
  | [a; b] =>
      String (b64_char (a / 4))
        (String (b64_char (a mod 4 * 16 + b / 16))
           (String (b64_char (b mod 16 * 4))
              (String pad EmptyString)))
  | a :: b :: c :: rest =>
      String (b64_char (a / 4))
        (String (b64_char (a mod 4 * 16 + b / 16))
           (String (b64_char (b mod 16 * 4 + c / 64))
              (String (b64_char (c mod 64)) (encode rest))))
  end.

(** Modelled from the spec: [decode] of utils/audio (missing), which turns
    the "base64-encoded" payload back into bytes; a malformed payload has no
    decoding. *)
Fixpoint decode (s : string) : option (list Z) :=
  match s with
  | EmptyString => Some []
  | String c1 (String c2 (String c3 (String c4 rest))) =>
      match b64_index c1, b64_index c2 with
      | Some s1, Some s2 =>
          let b1 := s1 * 4 + s2 / 16 in
          if Ascii.eqb c3 pad then
            if Ascii.eqb c4 pad
            then match rest with EmptyString => Some [b1] | _ => None end
            else None
          else
            match b64_index c3 with
            | Some s3 =>
                let b2 := s2 mod 16 * 16 + s3 / 4 in
                if Ascii.eqb c4 pad
                then match rest with
                     | EmptyString => Some [b1; b2]
                     | _ => None
                     end
                else
                  match b64_index c4, decode rest with
                  | Some s4, Some bs =>
                      Some (b1 :: b2 :: (s3 mod 4 * 64 + s4) :: bs)
                  | _, _ => None
                  end
            | None => None
            end
      | _, _ => None
      end
  | _ => None
  end.

(** ** The outbound wire blob and the decoded buffer *)

Record Blob := mkBlob { data : string; mimeType : string }.

(** Modelled from the spec: [createBlob] of utils/audio (missing), which
    "takes a frame of floating-point samples ..., clamps/scales each to the
    signed 16-bit integer range, packs little-endian, base64-encodes, tags
    with sample-rate/encoding metadata". *)
Definition createBlob (frame : list Q) : Blob :=
  {| data := encode (packLE (map toInt16 frame));
     mimeType := "audio/pcm;rate=16000" |}.

(** The Web Audio [AudioBuffer]: interleaved samples, the channel count and
    the sample rate; [length] counts frames and [duration] is in seconds. *)
Record AudioBuffer := mkAudioBuffer {
  samples : list Q;
  numberOfChannels : positive;
  sampleRate : positive
}.

Definition frames (b : AudioBuffer) : Z :=
  Z.of_nat (List.length (samples b)) / Zpos (numberOfChannels b).

Definition duration (b : AudioBuffer) : Q := frames b # sampleRate b.

(** Modelled from the spec: [decodeAudioData] of utils/audio (missing),
    which turns raw little-endian 16-bit PCM into a "playable buffer object
    at the declared channel count and sample rate". *)
Definition decodeAudioData (bytes : list Z) (rate channels : positive)
  : option AudioBuffer :=
  match unpackLE bytes with
  | Some zs => Some {| samples := map fromInt16 zs;
                       numberOfChannels := channels;
                       sampleRate := rate |}
  | None => None
  end.

(** The whole inbound path for one payload, as [onmessage] composes it. *)
Definition decodePayload (payload : string) : option AudioBuffer :=
  match decode payload with
  | Some bytes => decodeAudioData bytes 24000 1
  | None => None
  end.

(** ** Vocabulary of the round trip *)

Definition is_int16 (z : Z) : Prop := -32768 <= z <= 32767.

(** A sextet's character is found back at the sextet's place in the
    alphabet, and is not the padding character. *)
Definition sextet_ok (n : Z) : bool :=
  match b64_index (b64_char n) with
  | Some m => (m =? n) && negb (Ascii.eqb (b64_char n) pad)
  | None => false
  end.

(** One step of the 16-bit scale. *)
Definition quantum : Q := 1 # 32768.

(** [s'] is no further than [eps] from [s]. *)
Definition within (eps : Q) (s s' : Q) : Prop := (Qabs (s' - s) <= eps)%Q.

End Audio.

(* ================================================================== *)
(** * The application component                                        *)
(* ================================================================== *)

Module App.

Import Audio.

(** The two source files of the repository hold two variants of the same
    component.  They differ in the visualiser, in the analyser's settings, in
    the session configuration and in how [onmessage] derives the status from
    a transcription; everything else below is common to both. *)
Inductive SourceFile :=
| App_tsx      (* src/App.tsx *)
| part_000.    (* src/unnamed/part_000 *)

Inductive AgentStatus := Idle | Listening | Thinking | Speaking | Error.

(** ** Browser and SDK objects held by the component *)

Inductive AudioContextState := suspended | running | closed.

Record AudioContext := mkAudioContext {
  state : AudioContextState;
  currentTime : Q;
  contextRate : positive
}.

Record MediaStream := mkMediaStream { active : bool }.

Record LiveSession := mkLiveSession { model : string }.

Record AnalyserNode := mkAnalyserNode {
  fftSize : Z;
  smoothingTimeConstant : Q
}.

Record ScriptProcessorNode := mkScriptProcessorNode {
  bufferSize : Z;
  numberOfInputChannels : Z;
  numberOfOutputChannels : Z
}.

Inductive MediaStreamAudioSourceNode := mkMediaStreamAudioSourceNode.

(** A fresh context runs and its clock starts at zero. *)
Definition newAudioContext (rate : positive) : AudioContext :=
  {| state := running; currentTime := 0; contextRate := rate |}.

(** [close()] on a context; the embedding lets [state] read 'closed' as soon
    as the call has been made. *)
Definition close (c : AudioContext) : AudioContext :=
  {| state := closed; currentTime := currentTime c;
     contextRate := contextRate c |}.

Definition is_closed (s : AudioContextState) : bool :=
  match s with closed => true | _ => false end.

(** ** Inbound messages, as far as [onmessage] inspects them *)

Record Transcription := mkTranscription { isFinal : bool }.

(** [inputTranscription] is [message.serverContent?.inputTranscription],
    [turnComplete] the truth value of [message.serverContent?.turnComplete]
    and [inlineData] is
    [message.serverContent?.modelTurn?.parts?.[0]?.inlineData?.data]. *)
Record LiveServerMessage := mkLiveServerMessage {
  inputTranscription : option Transcription;
  turnComplete : bool;
  inlineData : option string
}.

(** ** Calls into the browser and the SDK *)

(** The six calls of the teardown, one per step. *)
Inductive Step :=
| session_close
| tracks_stop
| scriptProcessor_disconnect
| mediaStreamSource_disconnect
| audioContext_close
| outputAudioContext_close.

Inductive Effect :=
| Called (s : Step)
| getUserMedia
| live_connect (m : string)
| sendRealtimeInput (media : Blob)
| source_start (on : AudioContextState) (when : Q) (buffer : AudioBuffer).

(** Which teardown calls raise an exception: the environment's choice. *)
Definition Faults := Step -> bool.

Definition no_faults : Faults := fun _ => false.

(** ** The component's state *)

Record World := mkWorld {
  isSessionActive : bool;
  agentStatus : AgentStatus;
  sessionRef : option LiveSession;
  micStreamRef : option MediaStream;
  audioContextRef : option AudioContext;
  scriptProcessorRef : option ScriptProcessorNode;
  mediaStreamSourceRef : option MediaStreamAudioSourceNode;
  outputAudioContextRef : option AudioContext;
  analyserNodeRef : option AnalyserNode;
  nextStartTimeRef : Q;
  trace : list Effect
}.

(** The component as mounted. *)
Definition initial : World :=
  {| isSessionActive := false; agentStatus := Idle;
     sessionRef := None; micStreamRef := None; audioContextRef := None;
     scriptProcessorRef := None; mediaStreamSourceRef := None;
     outputAudioContextRef := None; analyserNodeRef := None;
     nextStartTimeRef := 0; trace := [] |}.

Definition set_isSessionActive (b : bool) (w : World) : World :=
  mkWorld b (agentStatus w) (sessionRef w) (micStreamRef w)
    (audioContextRef w) (scriptProcessorRef w) (mediaStreamSourceRef w)
    (outputAudioContextRef w) (analyserNodeRef w) (nextStartTimeRef w)
    (trace w).

Definition set_agentStatus (s : AgentStatus) (w : World) : World :=
  mkWorld (isSessionActive w) s (sessionRef w) (micStreamRef w)
    (audioContextRef w) (scriptProcessorRef w) (mediaStreamSourceRef w)
    (outputAudioContextRef w) (analyserNodeRef w) (nextStartTimeRef w)
    (trace w).

Definition set_sessionRef (r : option LiveSession) (w : World) : World :=
  mkWorld (isSessionActive w) (agentStatus w) r (micStreamRef w)
    (audioContextRef w) (scriptProcessorRef w) (mediaStreamSourceRef w)
    (outputAudioContextRef w) (analyserNodeRef w) (nextStartTimeRef w)
    (trace w).

Definition set_micStreamRef (r : option MediaStream) (w : World) : World :=
  mkWorld (isSessionActive w) (agentStatus w) (sessionRef w) r
    (audioContextRef w) (scriptProcessorRef w) (mediaStreamSourceRef w)
    (outputAudioContextRef w) (analyserNodeRef w) (nextStartTimeRef w)
    (trace w).

Definition set_audioContextRef (r : option AudioContext) (w : World)
  : World :=
  mkWorld (isSessionActive w) (agentStatus w) (sessionRef w)
    (micStreamRef w) r (scriptProcessorRef w) (mediaStreamSourceRef w)
    (outputAudioContextRef w) (analyserNodeRef w) (nextStartTimeRef w)
    (trace w).

Definition set_scriptProcessorRef (r : option ScriptProcessorNode)
  (w : World) : World :=
  mkWorld (isSessionActive w) (agentStatus w) (sessionRef w)
    (micStreamRef w) (audioContextRef w) r (mediaStreamSourceRef w)
    (outputAudioContextRef w) (analyserNodeRef w) (nextStartTimeRef w)
    (trace w).

Definition set_mediaStreamSourceRef
  (r : option MediaStreamAudioSourceNode) (w : World) : World :=
  mkWorld (isSessionActive w) (agentStatus w) (sessionRef w)
    (micStreamRef w) (audioContextRef w) (scriptProcessorRef w) r
    (outputAudioContextRef w) (analyserNodeRef w) (nextStartTimeRef w)
    (trace w).

Definition set_outputAudioContextRef (r : option AudioContext) (w : World)
  : World :=
  mkWorld (isSessionActive w) (agentStatus w) (sessionRef w)
    (micStreamRef w) (audioContextRef w) (scriptProcessorRef w)
    (mediaStreamSourceRef w) r (analyserNodeRef w) (nextStartTimeRef w)
    (trace w).

Definition set_analyserNodeRef (r : option AnalyserNode) (w : World)
  : World :=
  mkWorld (isSessionActive w) (agentStatus w) (sessionRef w)
    (micStreamRef w) (audioContextRef w) (scriptProcessorRef w)
    (mediaStreamSourceRef w) (outputAudioContextRef w) r
    (nextStartTimeRef w) (trace w).

Definition set_nextStartTimeRef (t : Q) (w : World) : World :=
  mkWorld (isSessionActive w) (agentStatus w) (sessionRef w)
    (micStreamRef w) (audioContextRef w) (scriptProcessorRef w)
    (mediaStreamSourceRef w) (outputAudioContextRef w) (analyserNodeRef w)
    t (trace w).

Definition record (e : Effect) (w : World) : World :=
  mkWorld (isSessionActive w) (agentStatus w) (sessionRef w)
    (micStreamRef w) (audioContextRef w) (scriptProcessorRef w)
    (mediaStreamSourceRef w) (outputAudioContextRef w) (analyserNodeRef w)
    (nextStartTimeRef w) (trace w ++ [e]).

(** ** Handlers: state passing with exceptions *)

(** A handler either completes or raises; in both cases the writes it made
    up to that point stay. *)
Inductive Completion (A : Type) :=
| Normal (a : A)
| Thrown.

Arguments Normal {A} a.
Arguments Thrown {A}.

Definition M (A : Type) : Type := World -> Completion A * World.

Definition ret {A} (a : A) : M A := fun w => (Normal a, w).

Definition throw {A} : M A := fun w => (Thrown, w).

Definition bind {A B} (m : M A) (k : A -> M B) : M B :=
  fun w =>
    match m w with
    | (Normal a, w') => k a w'
    | (Thrown, w') => (Thrown, w')
    end.

Notation "x <- m ;; k" := (bind m (fun x => k))
  (at level 61, m at next level, right associativity).
Notation "m ;; k" := (bind m (fun _ => k))
  (at level 61, right associativity).

Definition read {A} (field : World -> A) : M A :=
  fun w => (Normal (field w), w).

Definition write (f : World -> World) : M unit :=
  fun w => (Normal tt, f w).

(** A teardown call: it is entered, and raises if the environment says so. *)
Definition call (f : Faults) (s : Step) : M unit :=
  fun w => if f s then (Thrown, record (Called s) w)
           else (Normal tt, record (Called s) w).

Definition setAgentStatus (s : AgentStatus) : M unit :=
  write (set_agentStatus s).

Definition setIsSessionActive (b : bool) : M unit :=
  write (set_isSessionActive b).

(** The world a handler leaves, and how it completed. *)
Definition exec {A} (m : M A) (w : World) : World := snd (m w).

Definition completes {A} (m : M A) (w : World) : bool :=
  match fst (m w) with Normal _ => true | Thrown => false end.

(** ** stopConversation *)

(** The teardown, statement by statement.  There is no exception handler in
    it: a call that raises ends the function there. *)
Definition stopConversation (f : Faults) : M unit :=
  (s <- read sessionRef ;;
   match s with
   | Some _ => call f session_close ;; write (set_sessionRef None)
   | None => ret tt
   end) ;;
  (m <- read micStreamRef ;;
   match m with
   | Some _ => call f tracks_stop ;; write (set_micStreamRef None)
   | None => ret tt
   end) ;;
  (p <- read scriptProcessorRef ;;
   match p with
   | Some _ =>
       call f scriptProcessor_disconnect ;;
       write (set_scriptProcessorRef None)
   | None => ret tt
   end) ;;
  (n <- read mediaStreamSourceRef ;;
   match n with
   | Some _ =>
       call f mediaStreamSource_disconnect ;;
       write (set_mediaStreamSourceRef None)
   | None => ret tt
   end) ;;
  (a <- read audioContextRef ;;
   match a with
   | Some c =>
       if is_closed (state c) then ret tt
       else call f audioContext_close ;;
            write (set_audioContextRef (Some (close c)))
   | None => ret tt
   end) ;;
  (o <- read outputAudioContextRef ;;
   match o with
   | Some c =>
       if is_closed (state c) then ret tt
       else call f outputAudioContext_close ;;
            write (set_outputAudioContextRef (Some (close c)))
   | None => ret tt
   end) ;;
  setIsSessionActive false ;;
  setAgentStatus Idle ;;
  write (set_nextStartTimeRef 0).

(** ** startConversation, cut at its two awaits *)

(** Up to [await navigator.mediaDevices.getUserMedia(...)]. *)
Definition startConversation_begin : M unit :=
  setAgentStatus Listening ;;
  setIsSessionActive true ;;
  write (record getUserMedia).

Definition analyserFor (v : SourceFile) : AnalyserNode :=
  match v with
  | App_tsx => {| fftSize := 512; smoothingTimeConstant := 5 # 10 |}
  | part_000 => {| fftSize := 256; smoothingTimeConstant := 8 # 10 |}
  end.

Definition modelFor (v : SourceFile) : string :=
  match v with
  | App_tsx => "gemini-2.5-flash-native-audio-preview-12-2025"
  | part_000 => "gemini-2.5-flash-native-audio-preview-09-2025"
  end.

(** From the granted stream up to [await sessionPromise]. *)
Definition startConversation_granted (v : SourceFile) (stream : MediaStream)
  : M unit :=
  write (set_micStreamRef (Some stream)) ;;
  write (set_audioContextRef (Some (newAudioContext 16000))) ;;
  write (set_outputAudioContextRef (Some (newAudioContext 24000))) ;;
  write (set_nextStartTimeRef 0) ;;
  write (set_analyserNodeRef (Some (analyserFor v))) ;;
  write (record (live_connect (modelFor v))).

(** After [await sessionPromise]. *)
Definition startConversation_connected (session : LiveSession) : M unit :=
  write (set_sessionRef (Some session)).

(** The [catch] clause: where a rejected await, or an exception raised in
    the [try] block, continues. *)
Definition startConversation_catch : M unit :=
  setAgentStatus Error ;;
  setIsSessionActive false.

(** A start in which the microphone is refused: the first await rejects. *)
Definition startConversation_denied : M unit :=
  startConversation_begin ;;
  startConversation_catch.

(** A start in which the microphone is granted and the connection to the
    service fails: the second await rejects. *)
Definition startConversation_unconnected (v : SourceFile)
  (stream : MediaStream) : M unit :=
  startConversation_begin ;;
  startConversation_granted v stream ;;
  startConversation_catch.

(** ** The session's callbacks *)

Definition onopen : M unit :=
  a <- read audioContextRef ;;
  match a with
  | None => throw
  | Some _ =>
      write (set_mediaStreamSourceRef (Some mkMediaStreamAudioSourceNode)) ;;
      write (set_scriptProcessorRef
               (Some {| bufferSize := 4096; numberOfInputChannels := 1;
                        numberOfOutputChannels := 1 |}))
  end.

(** The processor's handler builds the blob and hands the send to the
    session promise; it calls nothing itself. *)
Definition onaudioprocess (inputData : list Q) : M Blob :=
  ret (createBlob inputData).

(** The callback given to sessionPromise.then: it runs once the promise has
    resolved, after the handler that built the blob has returned. *)
Definition onaudioprocess_then (pcmBlob : Blob) : M unit :=
  write (record (sendRealtimeInput pcmBlob)).

(** JavaScript truth of a reference: null is false, an object is true. *)
Definition is_some {A} (o : option A) : bool :=
  match o with Some _ => true | None => false end.

(** The status a message sets before any audio is looked at. *)
Definition onmessage_status (v : SourceFile) (message : LiveServerMessage)
  : M unit :=
  match v with
  | App_tsx =>
      if is_some (inputTranscription message) || turnComplete message
      then setAgentStatus Listening
      else ret tt
  | part_000 =>
      match inputTranscription message with
      | Some t =>
          if isFinal t then setAgentStatus Thinking
          else setAgentStatus Listening
      | None => ret tt
      end ;;
      if turnComplete message then setAgentStatus Listening else ret tt
  end.

(** JavaScript truth of an optional string: absent and empty are false. *)
Definition truthy (s : option string) : bool :=
  match s with
  | Some EmptyString => false
  | Some _ => true
  | None => false
  end.

(** [onmessage] up to [await decodeAudioData(...)]: the result is the
    payload whose decoding is awaited, if the guard let the message in. *)
Definition onmessage_begin (v : SourceFile) (message : LiveServerMessage)
  : M (option string) :=
  onmessage_status v message ;;
  o <- read outputAudioContextRef ;;
  a <- read analyserNodeRef ;;
  if truthy (inlineData message) && is_some o && is_some a then
    setAgentStatus Speaking ;;
    ret (inlineData message)
  else ret None.

(** [onmessage] from the decoded buffer on: the playback scheduler. *)
Definition onmessage_resume (audioBuffer : AudioBuffer) : M unit :=
  o <- read outputAudioContextRef ;;
  match o with
  | None => throw
  | Some ctx =>
      let now := currentTime ctx in
      cursor <- read nextStartTimeRef ;;
      let startTime := Qmax now cursor in
      a <- read analyserNodeRef ;;
      match a with
      | None => throw
      | Some _ =>
          write (record (source_start (state ctx) startTime audioBuffer)) ;;
          write (set_nextStartTimeRef (startTime + duration audioBuffer))
      end
  end.

(** A message handled with nothing else running during the decode. *)
Definition onmessage (v : SourceFile) (message : LiveServerMessage) : M unit :=
  pending <- onmessage_begin v message ;;
  match pending with
  | None => ret tt
  | Some payload =>
      match decodePayload payload with
      | Some audioBuffer => onmessage_resume audioBuffer
      | None => throw
      end
  end.

Definition onerror (f : Faults) : M unit :=
  setAgentStatus Error ;;
  stopConversation f.

Definition onclose (f : Faults) : M unit :=
  stopConversation f.

Definition handleToggleSession (f : Faults) : M unit :=
  a <- read isSessionActive ;;
  if a then stopConversation f else startConversation_begin.

(** ** The output clock and runs of the scheduler *)

(** The environment's move: the output clock now reads [t]. *)
Definition clockReads (t : Q) (w : World) : World :=
  match outputAudioContextRef w with
  | Some c =>
      set_outputAudioContextRef
        (Some {| state := state c; currentTime := t;
                 contextRate := contextRate c |}) w
  | None => w
  end.

(** One buffer scheduled while the clock reads [t]. *)
Definition schedule (t : Q) (audioBuffer : AudioBuffer) : M unit :=
  write (clockReads t) ;;
  onmessage_resume audioBuffer.

(** Buffers scheduled one after the other, in the order of the list, each at
    its own clock reading. *)
Fixpoint scheduleAll (items : list (Q * AudioBuffer)) : M unit :=
  match items with
  | [] => ret tt
  | (t, b) :: rest => schedule t b ;; scheduleAll rest
  end.

(** The sources started so far, oldest first: start time and buffer. *)
Fixpoint started (tr : list Effect) : list (Q * AudioBuffer) :=
  match tr with
  | [] => []
  | source_start _ when b :: tr' => (when, b) :: started tr'
  | _ :: tr' => started tr'
  end.

(** The clock time at which a started source has played its buffer out. *)
Definition endTime (s : Q * AudioBuffer) : Q := fst s + duration (snd s).

(** No source starts before its predecessor has ended. *)
Fixpoint noOverlap (l : list (Q * AudioBuffer)) : Prop :=
  match l with
  | [] => True
  | s :: l' =>
      match l' with
      | [] => True
      | s' :: _ => endTime s <= fst s'
      end /\ noOverlap l'
  end.

(** Every source but the first starts exactly when its predecessor ends. *)
Fixpoint backToBack (l : list (Q * AudioBuffer)) : Prop :=
  match l with
  | [] => True
  | s :: l' =>
      match l' with
      | [] => True
      | s' :: _ => fst s' == endTime s
      end /\ backToBack l'
  end.

(** The cursor after each buffer of a run, oldest first. *)
Fixpoint cursors (items : list (Q * AudioBuffer)) (w : World) : list Q :=
  match items with
  | [] => []
  | (t, b) :: rest =>
      let w' := exec (schedule t b) w in
      nextStartTimeRef w' :: cursors rest w'
  end.

Fixpoint nonDecreasing (prev : Q) (l : list Q) : Prop :=
  match l with
  | [] => True
  | x :: l' => prev <= x /\ nonDecreasing x l'
  end.

(** Arrivals keep pace: each buffer arrives less than its predecessor's
    duration after it. *)
Fixpoint keepsPace (items : list (Q * AudioBuffer)) : Prop :=
  match items with
  | [] => True
  | (t, b) :: rest =>
      match rest with
      | [] => True
      | (t', _) :: _ => t' - t < duration b
      end /\ keepsPace rest
  end.

Definition totalDuration (items : list (Q * AudioBuffer)) : Q :=
  fold_right (fun i acc => duration (snd i) + acc) 0 items.

(** The durations added to [start] one after the other, in the order of the
    list: the additions the scheduler makes over a run without gaps. *)
Definition addedInOrder (start : Q) (items : list (Q * AudioBuffer)) : Q :=
  fold_left (fun acc i => acc + duration (snd i)) items start.

(** Every source but the first starts at the very end time that was
    computed for its predecessor. *)
Fixpoint gapless (l : list (Q * AudioBuffer)) : Prop :=
  match l with
  | [] => True
  | s :: l' =>
      match l' with
      | [] => True
      | s' :: _ => fst s' = endTime s
      end /\ gapless l'
  end.

(** ** Worlds used in the statements *)

(** The output context and the analyser node of a session are in place: what
    the scheduler dereferences. *)
Definition wired (w : World) : bool :=
  is_some (outputAudioContextRef w) && is_some (analyserNodeRef w).

(** The reading of the output clock, zero when there is none. *)
Definition outputClock (w : World) : Q :=
  match outputAudioContextRef w with
  | Some c => currentTime c
  | None => 0
  end.

(** Is the resource of a teardown step there to be torn down? *)
Definition present (s : Step) (w : World) : bool :=
  match s with
  | session_close => is_some (sessionRef w)
  | tracks_stop => is_some (micStreamRef w)
  | scriptProcessor_disconnect => is_some (scriptProcessorRef w)
  | mediaStreamSource_disconnect => is_some (mediaStreamSourceRef w)
  | audioContext_close =>
      match audioContextRef w with
      | Some c => negb (is_closed (state c))
      | None => false
      end
  | outputAudioContext_close =>
      match outputAudioContextRef w with
      | Some c => negb (is_closed (state c))
      | None => false
      end
  end.

(** A context reference that holds no open clock. *)
Definition noOpenClock (r : option AudioContext) : Prop :=
  match r with
  | Some c => state c = closed
  | None => True
  end.

(** The references hold no capture stream, no service session and no open
    clock.  A stream or a clock whose reference a later start has overwritten
    is out of its sight. *)
Definition nothingOpen (w : World) : Prop :=
  sessionRef w = None /\ micStreamRef w = None /\
  noOpenClock (audioContextRef w) /\
  noOpenClock (outputAudioContextRef w).

(** Every resource reference is null. *)
Definition allNull (w : World) : Prop :=
  sessionRef w = None /\ micStreamRef w = None /\
  audioContextRef w = None /\ scriptProcessorRef w = None /\
  mediaStreamSourceRef w = None /\ outputAudioContextRef w = None /\
  analyserNodeRef w = None.

(** A session brought up in full: microphone granted, stream opened and
    connected. *)
Definition bringUp (v : SourceFile) : M unit :=
  startConversation_begin ;;
  startConversation_granted v {| active := true |} ;;
  onopen ;;
  startConversation_connected {| model := modelFor v |}.

Definition activeWorld (v : SourceFile) : World := exec (bringUp v) initial.

(** A buffer of [n] mono frames at the inbound rate of 24 kHz. *)
Definition silence (n : N) : AudioBuffer :=
  {| samples := repeat 0 (N.to_nat n);
     numberOfChannels := 1; sampleRate := 24000 |}.

(** The first of a list of sources does not start before [c]. *)
Definition startsFrom (c : Q) (l : list (Q * AudioBuffer)) : Prop :=
  match l with
  | [] => True
  | s :: _ => c <= fst s
  end.

(** The teardown steps in the order of the source, and those among them
    whose resource is there. *)
Definition teardownSteps : list Step :=
  [session_close; tracks_stop; scriptProcessor_disconnect;
   mediaStreamSource_disconnect; audioContext_close;
   outputAudioContext_close].

Definition attempted (w : World) : list Step :=
  filter (fun s => present s w) teardownSteps.

(** An environment in which closing the service session raises. *)
Definition sessionCloseRaises : Faults :=
  fun s => match s with session_close => true | _ => false end.

(** A message that carries a transcription of the caller and nothing else. *)
Definition transcriptionOnly (final : bool) : LiveServerMessage :=
  {| inputTranscription := Some {| isFinal := final |};
     turnComplete := false;
     inlineData := None |}.

(** A message that carries an inline audio payload and nothing else. *)
Definition audioOnly (payload : string) : LiveServerMessage :=
  {| inputTranscription := None;
     turnComplete := false;
     inlineData := Some payload |}.

(** A message whose decoding is still awaited when the session is stopped:
    the teardown runs between the two halves of [onmessage]. *)
Definition stopDuringDecode (v : SourceFile) (message : LiveServerMessage)
  (f : Faults) : M unit :=
  pending <- onmessage_begin v message ;;
  stopConversation f ;;
  match pending with
  | None => ret tt
  | Some payload =>
      match decodePayload payload with
      | Some audioBuffer => onmessage_resume audioBuffer
      | None => throw
      end
  end.

(** ** Proof automation *)

(** Unfolds the handlers and the state record, leaving the case analyses on
    references and on the environment's choices in view. *)
Ltac run :=
  cbv beta iota zeta delta
    [stopConversation onerror onclose handleToggleSession
     startConversation_begin startConversation_catch startConversation_denied
     startConversation_granted startConversation_connected
     startConversation_unconnected onopen
     onmessage_begin onmessage_status
     bind ret throw read write call setAgentStatus setIsSessionActive
     exec completes fst snd record present is_some is_closed close no_faults
     noOpenClock nothingOpen allNull wired truthy orb andb negb
     attempted teardownSteps filter map
     set_isSessionActive set_agentStatus set_sessionRef set_micStreamRef
     set_audioContextRef set_scriptProcessorRef set_mediaStreamSourceRef
     set_outputAudioContextRef set_analyserNodeRef set_nextStartTimeRef
     isSessionActive agentStatus sessionRef micStreamRef audioContextRef
     scriptProcessorRef mediaStreamSourceRef outputAudioContextRef
     analyserNodeRef nextStartTimeRef trace state currentTime contextRate
     inputTranscription turnComplete inlineData isFinal].

(** Case analysis on whatever the goal inspects next: a reference, a
    context's state or a choice of the environment. *)
Ltac cases :=
  repeat (first
            [ match goal with
              | |- context [match ?x with _ => _ end] => is_var x; destruct x
              end
            | match goal with
              | |- context [if ?f ?s then _ else _] => destruct (f s) eqn:?
              end ];
          run; try (intros; discriminate)).

(** Splits a world into its fields and its six resource references into
    their cases. *)
Ltac open_world w :=
  destruct w as [act st se mi ac sp ms oc an cur tr];
  destruct se, mi, sp, ms, ac as [[[] ? ?]|], oc as [[[] ? ?]|].

End App.

(* ================================================================== *)
(** * The component over time: events and their handlers               *)
(* ================================================================== *)

Module Events.

Import Audio App.

(** A start that runs to its end: microphone granted, stream opened, session
    connected. *)
Definition startConversation_established (v : SourceFile)
  (stream : MediaStream) (session : LiveSession) : M unit :=
  startConversation_begin ;;
  startConversation_granted v stream ;;
  onopen ;;
  startConversation_connected session.


(** A start during which the user stops the session while the microphone
    request is still pending: the teardown runs before the first await
    settles, and the start goes on when the microphone is granted. *)
Definition stopWhilePrompting (v : SourceFile) (f : Faults)
  (stream : MediaStream) (session : LiveSession) : M unit :=
  startConversation_begin ;;
  stopConversation f ;;
  startConversation_granted v stream ;;
  onopen ;;
  startConversation_connected session.

(** What can happen to the mounted component.  The settling of an await is
    an event of its own, and so is the callback that a captured frame hands
    to the session promise; nothing here says that the awaited operation was
    under way, so the runs below include every run of the application. *)
Inductive Event :=
| click
| microphoneGranted (stream : MediaStream)
| microphoneDenied
| streamOpened
| sessionConnected (session : LiveSession)
| connectionFailed
| messageArrived (message : LiveServerMessage)
| bufferDecoded (audioBuffer : AudioBuffer)
| streamError
| streamClosed
| frameCaptured (inputData : list Q)
| frameSent (pcmBlob : Blob)
| clockAdvanced (t : Q)
| unmounted.

(** The code that an event runs. *)
Definition handle (v : SourceFile) (f : Faults) (e : Event) : M unit :=
  match e with
  | click => handleToggleSession f
  | microphoneGranted stream => startConversation_granted v stream
  | microphoneDenied => startConversation_catch
  | streamOpened => onopen
  | sessionConnected session => startConversation_connected session
  | connectionFailed => startConversation_catch
  | messageArrived message => onmessage_begin v message ;; ret tt
  | bufferDecoded audioBuffer => onmessage_resume audioBuffer
  | streamError => onerror f
  | streamClosed => onclose f
  | frameCaptured inputData => onaudioprocess inputData ;; ret tt
  | frameSent pcmBlob => onaudioprocess_then pcmBlob
  | clockAdvanced t => write (clockReads t)
  | unmounted => stopConversation f
  end.

(** The world after a sequence of events; a handler that raised has left
    its writes and the next event finds them. *)
Fixpoint after (v : SourceFile) (f : Faults) (es : list Event) (w : World)
  : World :=
  match es with
  | [] => w
  | e :: es' => after v f es' (exec (handle v f e) w)
  end.

(** While the session is marked active the status is one of the three
    conversational ones. *)
Definition conversing (s : AgentStatus) : bool :=
  match s with
  | Listening | Thinking | Speaking => true
  | Idle | Error => false
  end.

Definition activeIsConversing (w : World) : bool :=
  negb (isSessionActive w) || conversing (agentStatus w).

(** The guard of [onmessage]: the payload is a non-empty string and the two
    references of the scheduler are set. *)
Definition letIn (message : LiveServerMessage) (w : World) : bool :=
  truthy (inlineData message) && wired w.

Definition isWired (w : World) : Prop := wired w = true.

(** The references a message handler leaves alone. *)
Definition sameResources (w w' : World) : Prop :=
  isSessionActive w' = isSessionActive w /\
  sessionRef w' = sessionRef w /\
  micStreamRef w' = micStreamRef w /\
  audioContextRef w' = audioContextRef w /\
  scriptProcessorRef w' = scriptProcessorRef w /\
  mediaStreamSourceRef w' = mediaStreamSourceRef w /\
  outputAudioContextRef w' = outputAudioContextRef w /\
  analyserNodeRef w' = analyserNodeRef w.

End Events.

(* ================================================================== *)
(** * What is drawn                                                    *)
(* ================================================================== *)

Module View.

Import App.

Local Open Scope string_scope.

(** ** part_000: the status line *)

(** The enum's values are the texts part_000 displays. *)
Definition statusText (s : AgentStatus) : string :=
  match s with
  | Idle => "Idle"
  | Listening => "Listening..."
  | Thinking => "Thinking..."
  | Speaking => "Speaking..."
  | Error => "Error"
  end.

Definition getStatusColor (agentStatus : AgentStatus) : string :=
  match agentStatus with
  | Listening => "text-green-400"
  | Thinking => "text-yellow-400"
  | Speaking => "text-blue-400"
  | Error => "text-red-500"
  | _ => "text-gray-400"
  end.

(** ** App.tsx: the captions under the orb *)

(** [cond && text] in JSX: the text when the condition holds, nothing
    otherwise. *)
Definition shown (cond : bool) (text : string) : list string :=
  if cond then [text] else [].

Definition status_eqb (a b : AgentStatus) : bool :=
  match a, b with
  | Idle, Idle | Listening, Listening | Thinking, Thinking
  | Speaking, Speaking | Error, Error => true
  | _, _ => false
  end.

(** The texts of the two caption paragraphs, in document order. *)
Definition captions (agentStatus : AgentStatus) : list string :=
  shown (status_eqb agentStatus Listening) "Listening..." ++
  shown (status_eqb agentStatus Thinking) "Translating context..." ++
  shown (status_eqb agentStatus Speaking) "Responding..." ++
  shown (status_eqb agentStatus Error) "Connection Error" ++
  shown (status_eqb agentStatus Idle) "Ready to converse in Urdu & English".

(** The first paragraph is opaque unless the status is Idle. *)
Definition captionOpaque (agentStatus : AgentStatus) : bool :=
  negb (status_eqb agentStatus Idle).

(** The word behind the orb. *)
Definition backdrop (agentStatus : AgentStatus) : string :=
  if status_eqb agentStatus Speaking then "SUNIYE" else "BOLIYE".

Local Close Scope string_scope.
Local Open Scope Q_scope.

(** ** App.tsx: the orb's outline (SonicOrb, draw) *)

(** [Math.floor((i / 100) * (bufferLength / 2))], on exact rationals. *)
Definition dataIndex (bufferLength i : Z) : Z :=
  Qfloor ((inject_Z i / 100) * (inject_Z bufferLength / 2)).

(** [dataArray[dataIndex] || 0]: a place outside the array reads as
    undefined, which counts as zero. *)
Definition valueAt (dataArray : list Z) (index : Z) : Z :=
  if (index <? 0)%Z then 0%Z
  else nth (Z.to_nat index) dataArray 0%Z.

(** The outward offset of point [i] while the agent speaks. *)
Definition speakingOffset (dataArray : list Z) (bufferLength i : Z)
  (baseRadius : Q) : Q :=
  (inject_Z (valueAt dataArray (dataIndex bufferLength i)) / 255) *
  (baseRadius * (5 # 10)).

(** ** part_000: the bars (AudioWaveform, draw) *)

Record Bar := mkBar {
  left : Q;
  top : Q;
  width : Q;
  height : Q;
  red : Q;
  green : Q;
  blue : Q
}.

(** [(canvas.width / bufferLength) * 2.5] *)
Definition barWidthOf (canvasWidth : Q) (bufferLength : Z) : Q :=
  (canvasWidth / inject_Z bufferLength) * (25 # 10).

(** The body of the loop, from index [i] and abscissa [x] on, over the bytes
    that are left. *)
Fixpoint barsFrom (canvasHeight barWidth : Q) (bufferLength : Z)
  (i : Z) (x : Q) (data : list Z) : list Bar :=
  match data with
  | [] => []
  | barHeight :: rest =>
      {| left := x;
         top := canvasHeight - inject_Z barHeight / 2;
         width := barWidth;
         height := inject_Z barHeight / 2;
         red := 50;
         green := 250 * (inject_Z i / inject_Z bufferLength);
         blue := inject_Z barHeight +
                 25 * (inject_Z i / inject_Z bufferLength) |}
      :: barsFrom canvasHeight barWidth bufferLength (i + 1)
           (x + barWidth + 1) rest
  end.

(** The bars of one frame: [dataArray] has [bufferLength] bytes. *)
Definition bars (canvasWidth canvasHeight : Q) (dataArray : list Z)
  : list Bar :=
  let bufferLength := Z.of_nat (List.length dataArray) in
  barsFrom canvasHeight (barWidthOf canvasWidth bufferLength) bufferLength
    0 0 dataArray.

(** A byte of a [Uint8Array]. *)
Definition isByte (b : Z) : Prop := (0 <= b <= 255)%Z.

End View.

(* ================================================================== *)
(** * The codec: encoder, then decoder                                 *)
(* ================================================================== *)

Module Codec.

Import Audio.

(** ** Base64 *)

Section Base64.

Local Open Scope Z_scope.

(** The table, checked entry by entry. *)
Lemma table_ok : forallb sextet_ok (map Z.of_nat (seq 0 64)) = true.
Proof. vm_compute. reflexivity. Qed.

Lemma sextet_ok_all (n : Z) : 0 <= n < 64 -> sextet_ok n = true.
Proof.
  intros Hn.
  pose proof table_ok as H. rewrite forallb_forall in H.
  apply H. apply in_map_iff. exists (Z.to_nat n).
  split; [lia|]. apply in_seq. lia.
Qed.

Lemma b64_index_char (n : Z) :
  0 <= n < 64 -> b64_index (b64_char n) = Some n.
Proof.
  intros Hn. pose proof (sextet_ok_all n Hn) as H.
  unfold sextet_ok in H.
  destruct (b64_index (b64_char n)) as [m|]; [|discriminate].
  apply andb_prop in H. destruct H as [H _].
  apply Z.eqb_eq in H. congruence.
Qed.

Lemma b64_char_not_pad (n : Z) :
  0 <= n < 64 -> Ascii.eqb (b64_char n) pad = false.
Proof.
  intros Hn. pose proof (sextet_ok_all n Hn) as H.
  unfold sextet_ok in H.
  destruct (b64_index (b64_char n)) as [m|]; [|discriminate].
  apply andb_prop in H. destruct H as [_ H].
  apply negb_true_iff in H. exact H.
Qed.

(** [decode] on four characters, by cases as in its definition. *)
Lemma decode_quad (c1 c2 c3 c4 : ascii) (rest : string) :
  decode (String c1 (String c2 (String c3 (String c4 rest)))) =
  match b64_index c1, b64_index c2 with
  | Some s1, Some s2 =>
      let b1 := s1 * 4 + s2 / 16 in
      if Ascii.eqb c3 pad then
        if Ascii.eqb c4 pad
        then match rest with EmptyString => Some [b1] | _ => None end
        else None
      else
        match b64_index c3 with
        | Some s3 =>
            let b2 := s2 mod 16 * 16 + s3 / 4 in
            if Ascii.eqb c4 pad
            then match rest with
                 | EmptyString => Some [b1; b2]
                 | _ => None
                 end
            else
              match b64_index c4, decode rest with
              | Some s4, Some bs =>
                  Some (b1 :: b2 :: (s3 mod 4 * 64 + s4) :: bs)
              | _, _ => None
              end
        | None => None
        end
  | _, _ => None
  end.
Proof. reflexivity. Qed.

Ltac sextets :=
  unfold is_byte in *; Z.to_euclidean_division_equations; lia.

Lemma decode_encode_one (a : Z) :
  is_byte a -> decode (encode [a]) = Some [a].
Proof.
  intros Ha. cbn [encode]. rewrite decode_quad.
  rewrite !b64_index_char by sextets.
  cbv zeta. replace (Ascii.eqb pad pad) with true by reflexivity.
  f_equal. f_equal. sextets.
Qed.

Lemma decode_encode_two (a b : Z) :
  is_byte a -> is_byte b -> decode (encode [a; b]) = Some [a; b].
Proof.
  intros Ha Hb. cbn [encode]. rewrite decode_quad.
  rewrite !b64_index_char by sextets.
  rewrite b64_char_not_pad by sextets.
  cbv zeta. replace (Ascii.eqb pad pad) with true by reflexivity.
  f_equal. f_equal; [sextets|]. f_equal. sextets.
Qed.

Lemma decode_encode_three (a b c : Z) (rest : list Z) :
  is_byte a -> is_byte b -> is_byte c ->
  decode (encode (a :: b :: c :: rest)) =
  match decode (encode rest) with
  | Some bs => Some (a :: b :: c :: bs)
  | None => None
  end.
Proof.
  intros Ha Hb Hc. cbn [encode]. rewrite decode_quad.
  rewrite !b64_index_char by sextets.
  rewrite !b64_char_not_pad by sextets.
  cbv zeta.
  destruct (decode (encode rest)) as [bs|]; [|reflexivity].
  f_equal. f_equal; [sextets|]. f_equal; [sextets|]. f_equal. sextets.
Qed.

(** Decoding an encoding gives the bytes back. *)
Lemma decode_encode (bs : list Z) :
  Forall is_byte bs -> decode (encode bs) = Some bs.
Proof.
  assert (H : forall n bs, (List.length bs <= n)%nat ->
                           Forall is_byte bs -> decode (encode bs) = Some bs).
  { clear bs. induction n as [|n IH]; intros bs Hlen Hb.
    - destruct bs; [reflexivity|simpl in Hlen; lia].
    - destruct bs as [|a [|b [|c rest]]].
      + reflexivity.
      + inversion Hb; subst. apply decode_encode_one; assumption.
      + inversion Hb as [|? ? Ha Hb']; subst.
        inversion Hb' as [|? ? Hb0 _]; subst.
        apply decode_encode_two; assumption.
      + inversion Hb as [|? ? Ha Hb']; subst.
        inversion Hb' as [|? ? Hb0 Hb'']; subst.
        inversion Hb'' as [|? ? Hc Hrest]; subst.
        rewrite decode_encode_three by assumption.
        rewrite IH; [reflexivity| |assumption].
        simpl in Hlen. lia. }
  apply (H (List.length bs)). lia.
Qed.

End Base64.

(** ** Little-endian packing *)

Section Packing.

Local Open Scope Z_scope.

Lemma int16_bytes_are_bytes (z : Z) : Forall is_byte (int16_bytes z).
Proof.
  unfold int16_bytes, is_byte.
  repeat constructor; Z.to_euclidean_division_equations; lia.
Qed.

Lemma packLE_bytes (zs : list Z) : Forall is_byte (packLE zs).
Proof.
  induction zs as [|z zs IH]; [constructor|].
  change (packLE (z :: zs)) with (int16_bytes z ++ packLE zs).
  apply Forall_app. split.
  - apply int16_bytes_are_bytes.
  - exact IH.
Qed.

Lemma bytes_int16_bytes (z : Z) :
  is_int16 z ->
  bytes_int16 ((z mod 65536) mod 256) ((z mod 65536) / 256) = z.
Proof.
  unfold is_int16, bytes_int16. intros Hz. cbv zeta.
  destruct (Z.ltb_spec ((z mod 65536) mod 256 + 256 * ((z mod 65536) / 256))
              32768);
    Z.to_euclidean_division_equations; lia.
Qed.

Lemma unpackLE_packLE (zs : list Z) :
  Forall is_int16 zs -> unpackLE (packLE zs) = Some zs.
Proof.
  induction 1 as [|z zs Hz _ IH]; [reflexivity|].
  unfold packLE in *. cbn [flat_map int16_bytes app unpackLE].
  rewrite IH. rewrite bytes_int16_bytes by assumption. reflexivity.
Qed.

End Packing.

(** ** Quantisation *)

Section Quantisation.

Local Open Scope Q_scope.

Lemma clamp_is_int16 (z : Z) : is_int16 (clamp (-32768) 32767 z).
Proof. unfold is_int16, clamp. lia. Qed.

Lemma toInt16_is_int16 (s : Q) : is_int16 (toInt16 s).
Proof. apply clamp_is_int16. Qed.

(** Truncation moves a number towards zero by less than one. *)
Lemma Qtrunc_nonneg (q : Q) :
  0 <= q -> inject_Z (Qtrunc q) <= q /\ q < inject_Z (Qtrunc q) + 1.
Proof.
  destruct q as [n d]. unfold Qtrunc, Qle, Qlt, inject_Z, Qplus; simpl.
  intros Hq. split; Z.to_euclidean_division_equations; nia.
Qed.

Lemma Qtrunc_nonpos (q : Q) :
  q <= 0 -> inject_Z (Qtrunc q) - 1 < q /\ q <= inject_Z (Qtrunc q).
Proof.
  destruct q as [n d].
  unfold Qtrunc, Qle, Qlt, inject_Z, Qminus, Qplus, Qopp; simpl.
  intros Hq. split; Z.to_euclidean_division_equations; nia.
Qed.

(** The three cases of the clamp. *)
Lemma clamp_cases (n : Z) :
  (n < -32768 /\ clamp (-32768) 32767 n = -32768)%Z \/
  (-32768 <= n <= 32767 /\ clamp (-32768) 32767 n = n)%Z \/
  (32767 < n /\ clamp (-32768) 32767 n = 32767)%Z.
Proof. unfold clamp. lia. Qed.

(** One sample scaled, quantised and clamped: off by at most one. *)
Lemma toInt16_close (s : Q) :
  -1 <= s <= 1 ->
  inject_Z (toInt16 s) - 1 <= s * 32768 <= inject_Z (toInt16 s) + 1.
Proof.
  intros [Hlo Hhi]. unfold toInt16.
  set (x := s * 32768).
  assert (Hx : -32768 <= x <= 32768) by (unfold x; lra).
  set (n := Qtrunc x).
  assert (Hpos : 0 <= x -> inject_Z n <= x /\ x < inject_Z n + 1)
    by apply Qtrunc_nonneg.
  assert (Hneg : x <= 0 -> inject_Z n - 1 < x /\ x <= inject_Z n)
    by apply Qtrunc_nonpos.
  destruct (clamp_cases n) as [[Hn ->]|[[Hn ->]|[Hn ->]]].
  - apply Z.lt_le_pred in Hn. rewrite Zle_Qle in Hn.
    change (inject_Z (Z.pred (-32768))) with (-32769) in Hn.
    change (inject_Z (-32768)) with (-32768).
    destruct (Qlt_le_dec x 0) as [H|H].
    + destruct Hneg as [H1 H2]; lra.
    + destruct Hpos as [H1 H2]; lra.
  - destruct (Qlt_le_dec x 0) as [H|H].
    + destruct Hneg as [H1 H2]; lra.
    + destruct Hpos as [H1 H2]; lra.
  - apply Z.le_succ_l in Hn. rewrite Zle_Qle in Hn.
    change (inject_Z (Z.succ 32767)) with 32768 in Hn.
    change (inject_Z 32767) with 32767.
    destruct (Qlt_le_dec x 0) as [H|H].
    + destruct Hneg as [H1 H2]; lra.
    + destruct Hpos as [H1 H2]; lra.
Qed.

(** One sample through the quantiser and back: off by at most one step of
    the 16-bit scale. *)
Lemma fromInt16_toInt16 (s : Q) :
  -1 <= s <= 1 -> Qabs (fromInt16 (toInt16 s) - s) <= 1 # 32768.
Proof.
  intros Hs. pose proof (toInt16_close s Hs) as [H1 H2].
  apply Qabs_Qle_condition. unfold fromInt16, Qdiv.
  change (/ 32768) with (1 # 32768).
  split; lra.
Qed.

(** ** The round trip *)

Lemma unpackLE_packLE_toInt16 (frame : list Q) :
  unpackLE (packLE (map toInt16 frame)) = Some (map toInt16 frame).
Proof.
  apply unpackLE_packLE. apply Forall_forall. intros z Hz.
  apply in_map_iff in Hz. destruct Hz as (s & <- & _).
  apply toInt16_is_int16.
Qed.

(** C4.  A frame of samples in [-1, 1] that goes through the encoder and
    then through the decoder, at whatever rate and channel count the buffer
    is declared, comes back sample for sample within one step of the 16-bit
    scale. *)
Theorem encode_then_decode (frame : list Q) (rate channels : positive) :
  Forall (fun s => -1 <= s <= 1) frame ->
  exists bytes buffer,
    decode (data (createBlob frame)) = Some bytes /\
    decodeAudioData bytes rate channels = Some buffer /\
    sampleRate buffer = rate /\
    numberOfChannels buffer = channels /\
    Forall2 (within quantum) frame (samples buffer).
Proof.
  intros Hframe.
  exists (packLE (map toInt16 frame)).
  exists {| samples := map fromInt16 (map toInt16 frame);
            numberOfChannels := channels; sampleRate := rate |}.
  split.
  { unfold createBlob; cbn [data]. apply decode_encode. apply packLE_bytes. }
  split.
  { unfold decodeAudioData. rewrite unpackLE_packLE_toInt16. reflexivity. }
  split; [reflexivity|]. split; [reflexivity|].
  cbn [samples].
  induction Hframe as [|s frame Hs _ IH]; [constructor|].
  constructor; [|exact IH].
  unfold within, quantum. apply fromInt16_toInt16. exact Hs.
Qed.

Lemma encode_then_decode_witness :
  Forall (fun s => -1 <= s <= 1) [1; -1; 1 # 3; - (2 # 7); 0] /\
  exists bytes buffer,
    decode (data (createBlob [1; -1; 1 # 3; - (2 # 7); 0])) = Some bytes /\
    decodeAudioData bytes 24000 1 = Some buffer /\
    sampleRate buffer = 24000%positive /\
    numberOfChannels buffer = 1%positive /\
    Forall2 (within quantum) [1; -1; 1 # 3; - (2 # 7); 0] (samples buffer).
Proof.
  assert (H : Forall (fun s => -1 <= s <= 1) [1; -1; 1 # 3; - (2 # 7); 0]).
  { repeat constructor; vm_compute; discriminate. }
  split; [exact H|].
  exact (encode_then_decode [1; -1; 1 # 3; - (2 # 7); 0] 24000 1 H).
Defined.

End Quantisation.

End Codec.

(* ================================================================== *)
(** * The playback scheduler                                           *)
(* ================================================================== *)

Module Scheduler.

Import Audio App.

Local Open Scope Q_scope.

Lemma duration_nonneg (b : AudioBuffer) : 0 <= duration b.
Proof.
  unfold duration, frames, Qle; simpl.
  rewrite Z.mul_1_r.
  apply Z.div_pos; lia.
Qed.

Lemma started_snoc (tr : list Effect) (e : Effect) :
  started (tr ++ [e]) = started tr ++ started [e].
Proof.
  induction tr as [|x tr IH]; simpl; [reflexivity|].
  destruct x; simpl; rewrite IH; reflexivity.
Qed.

(** What the scheduler does in a wired world, in one equation. *)
Lemma onmessage_resume_wired (w : World) (c : AudioContext) (a : AnalyserNode)
  (b : AudioBuffer) :
  outputAudioContextRef w = Some c ->
  analyserNodeRef w = Some a ->
  onmessage_resume b w =
  (Normal tt,
   set_nextStartTimeRef
     (Qmax (currentTime c) (nextStartTimeRef w) + duration b)
     (record (source_start (state c)
                (Qmax (currentTime c) (nextStartTimeRef w)) b) w)).
Proof.
  intros Ho Ha.
  unfold onmessage_resume, bind, read, write.
  rewrite Ho; simpl. rewrite Ha; reflexivity.
Qed.

Lemma wired_inv (w : World) :
  wired w = true ->
  exists c a, outputAudioContextRef w = Some c /\ analyserNodeRef w = Some a.
Proof.
  unfold wired.
  destruct (outputAudioContextRef w) as [c|]; [|discriminate].
  destruct (analyserNodeRef w) as [a|]; [|discriminate].
  intros _; exists c, a; split; reflexivity.
Qed.

(** One scheduling step, from a wired world. *)
Lemma schedule_step (w : World) (t : Q) (b : AudioBuffer) :
  wired w = true ->
  exists st,
    schedule t b w =
    (Normal tt,
     set_nextStartTimeRef (Qmax t (nextStartTimeRef w) + duration b)
       (record (source_start st (Qmax t (nextStartTimeRef w)) b)
          (clockReads t w))).
Proof.
  intros Hw. destruct (wired_inv w Hw) as (c & a & Ho & Ha).
  exists (state c).
  unfold schedule, bind, write.
  rewrite (onmessage_resume_wired (clockReads t w)
             {| state := state c; currentTime := t;
                contextRate := contextRate c |} a).
  - unfold clockReads; rewrite Ho; reflexivity.
  - unfold clockReads; rewrite Ho; reflexivity.
  - unfold clockReads; rewrite Ho; simpl; exact Ha.
Qed.

Lemma schedule_keeps_wired (w : World) (t : Q) (b : AudioBuffer) :
  wired w = true -> wired (exec (schedule t b) w) = true.
Proof.
  intros Hw. destruct (schedule_step w t b Hw) as [st E].
  unfold exec; rewrite E; simpl.
  destruct (wired_inv w Hw) as (c & a & Ho & Ha).
  unfold wired, clockReads; rewrite Ho; simpl. rewrite Ha; reflexivity.
Qed.

Lemma schedule_cursor (w : World) (t : Q) (b : AudioBuffer) :
  wired w = true ->
  nextStartTimeRef (exec (schedule t b) w) =
  Qmax t (nextStartTimeRef w) + duration b.
Proof.
  intros Hw. destruct (schedule_step w t b Hw) as [st E].
  unfold exec; rewrite E; reflexivity.
Qed.

Lemma schedule_started (w : World) (t : Q) (b : AudioBuffer) :
  wired w = true ->
  started (trace (exec (schedule t b) w)) =
  started (trace w) ++ [(Qmax t (nextStartTimeRef w), b)].
Proof.
  intros Hw. destruct (schedule_step w t b Hw) as [st E].
  unfold exec; rewrite E; simpl.
  rewrite started_snoc.
  destruct (wired_inv w Hw) as (c & a & Ho & Ha).
  unfold clockReads; rewrite Ho; reflexivity.
Qed.

Lemma schedule_completes (w : World) (t : Q) (b : AudioBuffer) :
  wired w = true -> completes (schedule t b) w = true.
Proof.
  intros Hw. destruct (schedule_step w t b Hw) as [st E].
  unfold completes; rewrite E; reflexivity.
Qed.

(** A run unfolds one buffer at a time. *)
Lemma scheduleAll_cons (w : World) (t : Q) (b : AudioBuffer)
  (rest : list (Q * AudioBuffer)) :
  wired w = true ->
  scheduleAll ((t, b) :: rest) w = scheduleAll rest (exec (schedule t b) w).
Proof.
  intros Hw. destruct (schedule_step w t b Hw) as [st E].
  simpl. unfold bind, exec. rewrite E. reflexivity.
Qed.

(** C1 (as amended).  In a wired world the scheduler starts the buffer at
    the larger of the clock reading and the cursor and moves the cursor to
    that start time plus the buffer's duration; right after the step the
    cursor is therefore no earlier than the clock reading the step used. *)
Theorem schedule_start_is_max (w : World) (t : Q) (b : AudioBuffer) :
  wired w = true ->
  let startTime := Qmax t (nextStartTimeRef w) in
  let w' := exec (schedule t b) w in
  completes (schedule t b) w = true /\
  outputClock (clockReads t w) = t /\
  started (trace w') = started (trace w) ++ [(startTime, b)] /\
  nextStartTimeRef w' = startTime + duration b /\
  t <= startTime /\
  nextStartTimeRef w <= startTime /\
  t <= nextStartTimeRef w'.
Proof.
  intros Hw startTime w'.
  pose proof (Q.le_max_l t (nextStartTimeRef w)) as Hl.
  pose proof (Q.le_max_r t (nextStartTimeRef w)) as Hr.
  pose proof (duration_nonneg b) as Hd.
  repeat split.
  - apply schedule_completes; assumption.
  - destruct (wired_inv w Hw) as (c & a & Ho & Ha).
    unfold outputClock, clockReads; rewrite Ho; reflexivity.
  - apply schedule_started; assumption.
  - apply schedule_cursor; assumption.
  - exact Hl.
  - exact Hr.
  - unfold w'; rewrite schedule_cursor by assumption.
    fold startTime. fold startTime in Hl. lra.
Qed.

Lemma schedule_start_is_max_witness :
  wired (activeWorld App_tsx) = true /\
  nextStartTimeRef (exec (schedule 1 (silence 24000)) (activeWorld App_tsx))
  = Qmax 1 0 + duration (silence 24000).
Proof.
  split; [reflexivity|].
  apply (schedule_start_is_max (activeWorld App_tsx) 1 (silence 24000)).
  reflexivity.
Defined.

(** C1, the statement as written fails: when the scheduler reads the cursor
    of a session that has just come up, with the output clock at one second,
    the cursor (zero) is behind the clock. *)
Lemma cursor_read_behind_clock :
  let w := clockReads 1 (activeWorld App_tsx) in
  wired w = true /\ ~ (outputClock w <= nextStartTimeRef w).
Proof.
  split; [reflexivity|].
  vm_compute. intros H; apply H; reflexivity.
Qed.

(** ** Runs of the scheduler *)

Lemma exec_scheduleAll_cons (w : World) (t : Q) (b : AudioBuffer)
  (rest : list (Q * AudioBuffer)) :
  wired w = true ->
  exec (scheduleAll ((t, b) :: rest)) w =
  exec (scheduleAll rest) (exec (schedule t b) w).
Proof.
  intros Hw. unfold exec at 1 2.
  rewrite scheduleAll_cons by assumption. reflexivity.
Qed.

Lemma completes_scheduleAll_cons (w : World) (t : Q) (b : AudioBuffer)
  (rest : list (Q * AudioBuffer)) :
  wired w = true ->
  completes (scheduleAll ((t, b) :: rest)) w =
  completes (scheduleAll rest) (exec (schedule t b) w).
Proof.
  intros Hw. unfold completes.
  rewrite scheduleAll_cons by assumption. reflexivity.
Qed.

Lemma run_noOverlap (items : list (Q * AudioBuffer)) :
  forall w, wired w = true ->
  completes (scheduleAll items) w = true /\
  nonDecreasing (nextStartTimeRef w) (cursors items w) /\
  exists ss,
    started (trace (exec (scheduleAll items) w)) = started (trace w) ++ ss /\
    map snd ss = map snd items /\
    startsFrom (nextStartTimeRef w) ss /\
    noOverlap ss.
Proof.
  induction items as [|[t b] rest IH]; intros w Hw.
  - split; [reflexivity|]. split; [exact I|].
    exists []. rewrite app_nil_r. repeat split.
  - pose proof (schedule_keeps_wired w t b Hw) as Hw1.
    destruct (IH _ Hw1) as (Hc & Hm & ss & Hst & Hbuf & Hfrom & Hno).
    pose proof (schedule_cursor w t b Hw) as Hcur.
    pose proof (Q.le_max_r t (nextStartTimeRef w)) as Hr.
    pose proof (duration_nonneg b) as Hd.
    split; [rewrite completes_scheduleAll_cons by assumption; exact Hc|].
    split.
    + simpl. split; [|exact Hm]. rewrite Hcur. lra.
    + exists ((Qmax t (nextStartTimeRef w), b) :: ss).
      rewrite exec_scheduleAll_cons by assumption.
      rewrite Hst, schedule_started by assumption.
      rewrite <- app_assoc. simpl.
      split; [reflexivity|]. split; [rewrite Hbuf; reflexivity|].
      split; [exact Hr|]. split; [|exact Hno].
      destruct ss as [|s' ss']; [exact I|].
      simpl in Hfrom. rewrite Hcur in Hfrom. exact Hfrom.
Qed.

(** C2.  Whatever the clock readings, a run of the scheduler over buffers in
    their order of arrival starts one source per buffer, in that order, none
    before its predecessor has ended, and never moves the cursor back. *)
Theorem scheduled_buffers_never_overlap (w : World)
  (items : list (Q * AudioBuffer)) :
  wired w = true ->
  let w' := exec (scheduleAll items) w in
  completes (scheduleAll items) w = true /\
  nonDecreasing (nextStartTimeRef w) (cursors items w) /\
  exists ss,
    started (trace w') = started (trace w) ++ ss /\
    map snd ss = map snd items /\
    noOverlap ss.
Proof.
  intros Hw w'.
  destruct (run_noOverlap items w Hw) as (Hc & Hm & ss & Hst & Hbuf & _ & Hno).
  split; [exact Hc|]. split; [exact Hm|].
  exists ss. repeat split; assumption.
Qed.

Lemma scheduled_buffers_never_overlap_witness :
  wired (activeWorld part_000) = true /\
  nonDecreasing (nextStartTimeRef (activeWorld part_000))
    (cursors [(3, silence 24000); (1, silence 12000); (9, silence 48000)]
       (activeWorld part_000)).
Proof.
  split; [reflexivity|].
  apply (scheduled_buffers_never_overlap (activeWorld part_000)
           [(3, silence 24000); (1, silence 12000); (9, silence 48000)]).
  reflexivity.
Defined.

(** The larger of two numbers is the second when it is strictly larger. *)
Lemma Qmax_lt_r (x y : Q) : x < y -> Qmax x y = y.
Proof.
  intros H. unfold Qmax, GenericMinMax.gmax.
  rewrite (proj1 (Qlt_alt x y) H). reflexivity.
Qed.

Lemma addedInOrder_cons (start : Q) (t : Q) (b : AudioBuffer)
  (rest : list (Q * AudioBuffer)) :
  addedInOrder start ((t, b) :: rest) = addedInOrder (start + duration b) rest.
Proof. reflexivity. Qed.

Lemma addedInOrder_comp (items : list (Q * AudioBuffer)) :
  forall a b, a == b -> addedInOrder a items == addedInOrder b items.
Proof.
  induction items as [|[t d] items IH]; intros a b Hab; [exact Hab|].
  rewrite !addedInOrder_cons. apply IH. rewrite Hab. reflexivity.
Qed.

(** In exact arithmetic the additions in order come to the sum. *)
Lemma addedInOrder_exact (items : list (Q * AudioBuffer)) :
  forall start, addedInOrder start items == start + totalDuration items.
Proof.
  induction items as [|[t d] items IH]; intros start.
  - unfold addedInOrder, totalDuration; simpl. lra.
  - rewrite addedInOrder_cons, IH. unfold totalDuration; simpl. lra.
Qed.

(** A run that keeps pace, by the steps the scheduler takes: each start but
    the first is the cursor the step before left, and no equation between
    sums taken in different orders is used. *)
Lemma run_gapless (rest : list (Q * AudioBuffer)) :
  forall (t : Q) (b : AudioBuffer) (w : World),
  wired w = true ->
  keepsPace ((t, b) :: rest) ->
  let w' := exec (scheduleAll ((t, b) :: rest)) w in
  let first := Qmax t (nextStartTimeRef w) in
  nextStartTimeRef w' = addedInOrder first ((t, b) :: rest) /\
  exists ss,
    started (trace w') = started (trace w) ++ (first, b) :: ss /\
    gapless ((first, b) :: ss) /\
    exists pre final,
      (first, b) :: ss = pre ++ [final] /\
      endTime final = nextStartTimeRef w'.
Proof.
  induction rest as [|[t' b'] rest IH]; intros t b w Hw Hpace w' first.
  - unfold w'. rewrite exec_scheduleAll_cons by assumption.
    change (exec (scheduleAll []) (exec (schedule t b) w))
      with (exec (schedule t b) w).
    rewrite schedule_cursor by assumption. fold first.
    split; [reflexivity|].
    exists []. rewrite schedule_started by assumption. fold first.
    split; [reflexivity|]. split; [simpl; tauto|].
    exists [], (first, b). split; reflexivity.
  - destruct Hpace as [Hgap Hpace].
    pose proof (schedule_keeps_wired w t b Hw) as Hw1.
    pose proof (schedule_cursor w t b Hw) as Hcur. fold first in Hcur.
    destruct (IH t' b' _ Hw1 Hpace)
      as (Hsum & ss & Hst & Hgl & pre & fin & Hlast & Hend).
    clear IH.
    assert (Hnext : Qmax t' (nextStartTimeRef (exec (schedule t b) w))
                    = first + duration b).
    { rewrite Hcur. apply Qmax_lt_r.
      pose proof (Q.le_max_l t (nextStartTimeRef w)) as Hl. fold first in Hl.
      lra. }
    rewrite Hnext in Hsum, Hst, Hgl, Hlast.
    unfold w'. rewrite exec_scheduleAll_cons by assumption.
    split.
    + rewrite Hsum. rewrite (addedInOrder_cons first). reflexivity.
    + exists ((first + duration b, b') :: ss).
      rewrite Hst, schedule_started by assumption. fold first.
      rewrite <- app_assoc. simpl.
      split; [reflexivity|].
      split.
      * split; [reflexivity|exact Hgl].
      * exists ((first, b) :: pre), fin.
        split; [rewrite Hlast; reflexivity|exact Hend].
Qed.

(** C7 (as amended).  When every buffer after the first arrives less than
    its predecessor's duration after it, every buffer but the first starts
    at the very end time computed for its predecessor, the cursor ends at the
    first start time with the durations added to it one after the other in
    the order of arrival, and that is the end time of the last buffer.
    Counted from the cursor before the run when the first buffer arrives no
    later than the cursor, it is that cursor with the durations added in
    order.  Only the order of numbers and the additions the scheduler itself
    makes enter the statement. *)
Theorem keeping_pace_no_drift (w : World) (t : Q) (b : AudioBuffer)
  (rest : list (Q * AudioBuffer)) :
  wired w = true ->
  keepsPace ((t, b) :: rest) ->
  let items := (t, b) :: rest in
  let w' := exec (scheduleAll items) w in
  let first := Qmax t (nextStartTimeRef w) in
  completes (scheduleAll items) w = true /\
  nextStartTimeRef w' = addedInOrder first items /\
  (t <= nextStartTimeRef w ->
   nextStartTimeRef w' == addedInOrder (nextStartTimeRef w) items) /\
  exists ss,
    started (trace w') = started (trace w) ++ (first, b) :: ss /\
    map snd ((first, b) :: ss) = map snd items /\
    gapless ((first, b) :: ss) /\
    exists pre final,
      (first, b) :: ss = pre ++ [final] /\
      endTime final = nextStartTimeRef w'.
Proof.
  intros Hw Hpace items w' first.
  destruct (run_gapless rest t b w Hw Hpace)
    as (Hsum & ss & Hst & Hgl & pre & fin & Hlast & Hend).
  destruct (run_noOverlap items w Hw) as (Hc & _ & ss0 & Hst0 & Hbuf & _).
  subst items w' first. cbv zeta in Hsum, Hst, Hgl, Hlast, Hend.
  split; [exact Hc|]. split; [exact Hsum|].
  split.
  - intros Hle. rewrite Hsum. apply addedInOrder_comp.
    apply Q.max_r. exact Hle.
  - exists ss. split; [exact Hst|].
    split.
    + rewrite Hst in Hst0. apply app_inv_head in Hst0.
      rewrite Hst0. exact Hbuf.
    + split; [exact Hgl|]. exists pre, fin. split; assumption.
Qed.

Lemma keeping_pace_no_drift_witness :
  wired (activeWorld part_000) = true /\
  keepsPace [(1, silence 24000); (3 # 2, silence 12000); (7 # 4, silence 6000)] /\
  nextStartTimeRef
    (exec (scheduleAll
             [(1, silence 24000); (3 # 2, silence 12000); (7 # 4, silence 6000)])
       (activeWorld part_000))
  = addedInOrder (Qmax 1 (nextStartTimeRef (activeWorld part_000)))
      [(1, silence 24000); (3 # 2, silence 12000); (7 # 4, silence 6000)].
Proof.
  split; [reflexivity|].
  assert (Hp : keepsPace [(1, silence 24000); (3 # 2, silence 12000);
                          (7 # 4, silence 6000)]).
  { cbn [keepsPace]. repeat split; vm_compute; reflexivity. }
  split; [exact Hp|].
  exact (proj1 (proj2 (keeping_pace_no_drift (activeWorld part_000) 1
                         (silence 24000)
                         [(3 # 2, silence 12000); (7 # 4, silence 6000)]
                         eq_refl Hp))).
Defined.

(** C7, the statement as written fails: a single buffer of one second that
    arrives when the clock of a fresh session reads one second moves the
    cursor from zero to two seconds, twice the sum of the durations. *)
Lemma cursor_advance_exceeds_total :
  let w := activeWorld App_tsx in
  let items := [(1, silence 24000)] in
  wired w = true /\ keepsPace items /\
  nextStartTimeRef (exec (scheduleAll items) w) - nextStartTimeRef w == 2 /\
  totalDuration items == 1 /\
  ~ (nextStartTimeRef (exec (scheduleAll items) w) - nextStartTimeRef w
     == totalDuration items).
Proof.
  split; [reflexivity|]. split; [cbn [keepsPace]; tauto|].
  split; [vm_compute; reflexivity|]. split; [vm_compute; reflexivity|].
  vm_compute. discriminate.
Qed.

End Scheduler.

(* ================================================================== *)
(** * The session controller                                           *)
(* ================================================================== *)

Module Session.

Import Audio App.

Local Open Scope Q_scope.

(** ** The teardown *)

Lemma bind_agree {A B} (m1 m2 : M A) (k1 k2 : A -> M B) (w : World) :
  completes (bind m1 k1) w = true ->
  (completes m1 w = true -> m1 w = m2 w) ->
  (forall a w', completes (k1 a) w' = true -> k1 a w' = k2 a w') ->
  bind m1 k1 w = bind m2 k2 w.
Proof.
  unfold bind, completes. intros H H1 H2.
  destruct (m1 w) as [[a|] w1] eqn:E1.
  - rewrite <- H1 by reflexivity. apply H2. exact H.
  - discriminate.
Qed.

(** A teardown that completes did what the teardown without faults does. *)
Lemma stop_completes_no_faults (f : Faults) (w : World) :
  completes (stopConversation f) w = true ->
  stopConversation f w = stopConversation no_faults w.
Proof.
  unfold stopConversation. revert w.
  do 6 (intros w H; apply bind_agree;
        [exact H | clear H; run; cases; reflexivity | clear H w; intros [] ]).
  reflexivity.
Qed.

(** What the teardown without faults leaves. *)
Lemma stop_no_faults_fields (w : World) :
  let w' := exec (stopConversation no_faults) w in
  completes (stopConversation no_faults) w = true /\
  isSessionActive w' = false /\
  agentStatus w' = Idle /\
  nextStartTimeRef w' = 0 /\
  sessionRef w' = None /\
  micStreamRef w' = None /\
  scriptProcessorRef w' = None /\
  mediaStreamSourceRef w' = None /\
  noOpenClock (audioContextRef w') /\
  noOpenClock (outputAudioContextRef w') /\
  analyserNodeRef w' = analyserNodeRef w.
Proof.
  open_world w; run; repeat split; reflexivity.
Qed.

(** The calls the teardown without faults makes: one per resource that is
    there, in the order of the source. *)
Lemma stop_no_faults_trace (w : World) :
  trace (exec (stopConversation no_faults) w) =
  trace w ++ map Called (attempted w).
Proof.
  open_world w; run; repeat rewrite <- app_assoc;
    try rewrite app_nil_r; reflexivity.
Qed.

(** The contexts are closed where they stand; their references stay. *)
Lemma stop_no_faults_contexts (w : World) :
  let w' := exec (stopConversation no_faults) w in
  (audioContextRef w = None <-> audioContextRef w' = None) /\
  (outputAudioContextRef w = None <-> outputAudioContextRef w' = None) /\
  outputClock w' = outputClock w.
Proof.
  unfold outputClock.
  open_world w; run; repeat split; intros; try reflexivity; try discriminate.
Qed.

(** Once torn down, a world is a fixed point of the teardown, whatever the
    environment: no call is left to make. *)
Lemma stop_after_stop (g : Faults) (w : World) :
  stopConversation g (exec (stopConversation no_faults) w) =
  (Normal tt, exec (stopConversation no_faults) w).
Proof.
  open_world w; run; reflexivity.
Qed.




(** C10.  With every resource reference null the teardown raises in no
    environment, makes no call and keeps the references null, and it leaves
    a world that is already inactive, Idle and at cursor zero as it is; and
    after a teardown that completed, a second one completes in every
    environment and changes nothing, the session being inactive, the status
    Idle and the cursor zero already. *)
Theorem stopConversation_idempotent (f g : Faults) (w : World) :
  (allNull w ->
   completes (stopConversation f) w = true /\
   allNull (exec (stopConversation f) w) /\
   trace (exec (stopConversation f) w) = trace w /\
   (isSessionActive w = false -> agentStatus w = Idle ->
    nextStartTimeRef w = 0 -> exec (stopConversation f) w = w)) /\
  (completes (stopConversation f) w = true ->
   let w1 := exec (stopConversation f) w in
   isSessionActive w1 = false /\
   agentStatus w1 = Idle /\
   nextStartTimeRef w1 = 0 /\
   completes (stopConversation g) w1 = true /\
   exec (stopConversation g) w1 = w1).
Proof.
  split.
  - intros (Hse & Hmi & Hac & Hsp & Hms & Hoc & Han).
    destruct w as [act st se mi ac sp ms oc an cur tr].
    simpl in Hse, Hmi, Hac, Hsp, Hms, Hoc, Han. subst.
    run. repeat split. intros -> -> ->. reflexivity.
  - intros H w1. unfold w1, exec.
    rewrite (stop_completes_no_faults f w H).
    fold (exec (stopConversation no_faults) w).
    destruct (stop_no_faults_fields w) as (_ & Hact & Hst & Hcur & _).
    split; [exact Hact|]. split; [exact Hst|]. split; [exact Hcur|].
    pose proof (stop_after_stop g w) as E.
    split; [unfold completes|]; rewrite E; reflexivity.
Qed.

Lemma stopConversation_idempotent_witness :
  completes (stopConversation no_faults) (activeWorld part_000) = true /\
  exec (stopConversation sessionCloseRaises)
    (exec (stopConversation no_faults) (activeWorld part_000)) =
  exec (stopConversation no_faults) (activeWorld part_000).
Proof.
  split; [reflexivity|].
  exact (proj2 (proj2 (proj2 (proj2
           (proj2 (stopConversation_idempotent no_faults sessionCloseRaises
                     (activeWorld part_000)) eq_refl))))).
Defined.

(** ** Status transitions *)

(** C5 (as amended).  For a message that carries a transcription of the
    caller, no turn-complete flag and no inline audio, the variant of
    part_000 sets Listening when the transcription is partial and Thinking
    when it is final, and the variant of App.tsx sets Listening in both
    cases. *)
Theorem transcription_status (w : World) (message : LiveServerMessage)
  (t : Transcription) :
  inputTranscription message = Some t ->
  turnComplete message = false ->
  truthy (inlineData message) = false ->
  completes (onmessage part_000 message) w = true /\
  completes (onmessage App_tsx message) w = true /\
  agentStatus (exec (onmessage part_000 message) w) =
    (if isFinal t then Thinking else Listening) /\
  agentStatus (exec (onmessage App_tsx message) w) = Listening.
Proof.
  destruct message as [it tc [[|c s]|]]; simpl; intros -> -> Hd;
    try discriminate;
    destruct t as [[]]; unfold onmessage; run;
    destruct (outputAudioContextRef w), (analyserNodeRef w);
    repeat split.
Qed.

Lemma transcription_status_witness :
  agentStatus (exec (onmessage part_000 (transcriptionOnly true))
                 (activeWorld part_000)) = Thinking /\
  agentStatus (exec (onmessage part_000 (transcriptionOnly false))
                 (activeWorld part_000)) = Listening.
Proof.
  split.
  - exact (proj1 (proj2 (proj2
             (transcription_status (activeWorld part_000)
                (transcriptionOnly true) {| isFinal := true |}
                eq_refl eq_refl eq_refl)))).
  - exact (proj1 (proj2 (proj2
             (transcription_status (activeWorld part_000)
                (transcriptionOnly false) {| isFinal := false |}
                eq_refl eq_refl eq_refl)))).
Defined.

(** C5, the statement as written fails: in App.tsx a final transcription
    sets Listening; in part_000 a final transcription that comes with the
    turn-complete flag sets Listening, and one that comes with inline audio
    sets Speaking. *)
Lemma final_transcription_not_thinking :
  agentStatus (exec (onmessage App_tsx (transcriptionOnly true))
                 (activeWorld App_tsx)) = Listening /\
  agentStatus (exec (onmessage part_000
                       {| inputTranscription := Some {| isFinal := true |};
                          turnComplete := true;
                          inlineData := None |})
                 (activeWorld part_000)) = Listening /\
  agentStatus (exec (onmessage part_000
                       {| inputTranscription := Some {| isFinal := true |};
                          turnComplete := false;
                          inlineData := Some "AAAAAAAA"%string |})
                 (activeWorld part_000)) = Speaking /\
  Listening <> Thinking /\ Speaking <> Thinking.
Proof.
  repeat split; try reflexivity; discriminate.
Qed.

(** ** A message with inline audio, start to end *)

(** X6.  With nothing else running during the decode, a message that the
    guard lets in and whose payload decodes sets Speaking and has exactly
    one buffer scheduled, by the rule of the scheduler. *)
Lemma onmessage_schedules_once (v : SourceFile) (w : World)
  (message : LiveServerMessage) (payload : string) (b : AudioBuffer) :
  wired w = true ->
  inlineData message = Some payload ->
  truthy (Some payload) = true ->
  decodePayload payload = Some b ->
  let w' := exec (onmessage v message) w in
  let startTime := Qmax (outputClock w) (nextStartTimeRef w) in
  completes (onmessage v message) w = true /\
  agentStatus w' = Speaking /\
  started (trace w') = started (trace w) ++ [(startTime, b)] /\
  nextStartTimeRef w' = startTime + duration b.
Proof.
  intros Hw Hdata Hp Hdec.
  destruct w as [act st se mi ac sp ms oc an cur tr].
  destruct message as [it tc d]. cbn [inlineData] in Hdata. subst d.
  unfold wired in Hw. cbn [outputAudioContextRef analyserNodeRef] in Hw.
  destruct oc as [c|]; [|discriminate].
  destruct an as [a|]; [|discriminate].
  destruct payload as [|ch rest]; [discriminate|].
  unfold onmessage, outputClock.
  destruct v, it as [[[]]|], tc; run; rewrite Hdec;
    unfold onmessage_resume; run; rewrite Scheduler.started_snoc;
    repeat split.
Qed.

(** C6, the code at a stream error.  The handler sets Error and then runs
    the teardown, whose last writes set the status to Idle: once the handler
    has completed the session is inactive and the status is Idle, as after a
    plain stop, and not Error. *)
Theorem onerror_ends_idle (w : World) :
  let w' := exec (onerror no_faults) w in
  completes (onerror no_faults) w = true /\
  agentStatus (exec (setAgentStatus Error) w) = Error /\
  w' = exec (stopConversation no_faults) w /\
  isSessionActive w' = false /\
  agentStatus w' = Idle /\
  agentStatus w' <> Error.
Proof.
  open_world w; run; repeat split; discriminate.
Qed.

(** C8 (as amended).  A start whose microphone request is refused
    completes with the status Error and the session inactive; beyond the
    request itself it makes no call and it writes no reference, so that it
    opens nothing, and the component references a stream, a session or an
    open clock afterwards exactly when it did before. *)
Theorem permission_denied (w : World) :
  let w' := exec startConversation_denied w in
  completes startConversation_denied w = true /\
  agentStatus w' = Error /\
  isSessionActive w' = false /\
  trace w' = trace w ++ [getUserMedia] /\
  w' = set_isSessionActive false
         (set_agentStatus Error (record getUserMedia w)) /\
  sessionRef w' = sessionRef w /\
  micStreamRef w' = micStreamRef w /\
  audioContextRef w' = audioContextRef w /\
  outputAudioContextRef w' = outputAudioContextRef w /\
  (nothingOpen w' <-> nothingOpen w).
Proof.
  destruct w as [act st se mi ac sp ms oc an cur tr].
  run. repeat (split; [reflexivity|]). tauto.
Qed.

Lemma permission_denied_witness :
  nothingOpen initial /\
  agentStatus (exec startConversation_denied initial) = Error /\
  isSessionActive (exec startConversation_denied initial) = false /\
  nothingOpen (exec startConversation_denied initial).
Proof.
  assert (Hn : nothingOpen initial) by (repeat split; reflexivity).
  split; [exact Hn|].
  pose proof (permission_denied initial)
    as (_ & H1 & H2 & _ & _ & _ & _ & _ & _ & H3).
  split; [exact H1|]. split; [exact H2|]. exact (proj2 H3 Hn).
Defined.

(** C8, the statement as written fails: a first start is granted the
    microphone and fails to connect, which leaves the component inactive
    with its stream and both clocks open; a second start is then refused the
    microphone, and when it has completed the status is Error, the session
    is inactive, and the stream and both clocks are open still. *)
Lemma denied_start_leaves_earlier_resources_open :
  let w :=
    exec (startConversation_unconnected App_tsx {| active := true |})
      initial in
  let w' := exec startConversation_denied w in
  isSessionActive w = false /\
  completes startConversation_denied w = true /\
  agentStatus w' = Error /\
  isSessionActive w' = false /\
  micStreamRef w' = Some {| active := true |} /\
  audioContextRef w' = Some (newAudioContext 16000) /\
  outputAudioContextRef w' = Some (newAudioContext 24000) /\
  present tracks_stop w' = true /\
  present audioContext_close w' = true /\
  present outputAudioContext_close w' = true /\
  ~ nothingOpen w'.
Proof.
  repeat (split; [reflexivity|]).
  intros (_ & H & _). discriminate H.
Qed.

(** The premise of the last part of [permission_denied] is not idle: a
    start that fails after the microphone was granted goes through the same
    [catch], which releases nothing, and leaves the stream referenced and
    both clocks running in an inactive component. *)
Lemma failed_connect_keeps_resources (v : SourceFile) :
  let w := exec (startConversation_unconnected v {| active := true |})
             initial in
  isSessionActive w = false /\
  agentStatus w = Error /\
  micStreamRef w = Some {| active := true |} /\
  present audioContext_close w = true /\
  present outputAudioContext_close w = true.
Proof.
  destruct v; repeat split.
Qed.

(** ** A stop while a decode is awaited *)

(** The teardown keeps the scheduler's two references: a world that was
    wired stays wired, with its output clock closed and standing still. *)
Lemma stop_keeps_wired (w : World) :
  wired w = true ->
  let stopped := exec (stopConversation no_faults) w in
  wired stopped = true /\
  outputClock stopped = outputClock w /\
  exists c, outputAudioContextRef stopped = Some c /\ state c = closed.
Proof.
  unfold outputClock.
  open_world w; run; intros H; try discriminate;
    destruct an; try discriminate;
    (split; [reflexivity|]; split; [reflexivity|]);
    eexists; split; reflexivity.
Qed.

(** Whatever the session and the buffer, a decode that settles after the
    teardown is scheduled all the same: on the closed context, at the
    reading of its stopped clock, and the cursor leaves zero by that reading
    plus the buffer's duration. *)
Lemma resume_after_stop (w : World) (b : AudioBuffer) :
  wired w = true ->
  let stopped := exec (stopConversation no_faults) w in
  let w' := exec (onmessage_resume b) stopped in
  completes (onmessage_resume b) stopped = true /\
  trace w' =
    trace stopped ++ [source_start closed (Qmax (outputClock w) 0) b] /\
  nextStartTimeRef w' = Qmax (outputClock w) 0 + duration b.
Proof.
  intros Hw stopped w'.
  destruct (stop_keeps_wired w Hw) as (Hws & Hclock & c & Hc & Hclosed).
  fold stopped in Hws, Hclock, Hc.
  destruct (Scheduler.wired_inv stopped Hws) as (c' & a & Ho & Ha).
  rewrite Hc in Ho. injection Ho as <-.
  destruct (stop_no_faults_fields w) as (_ & _ & _ & Hcur & _).
  fold stopped in Hcur.
  unfold w', completes, exec.
  rewrite (Scheduler.onmessage_resume_wired stopped c a b Hc Ha).
  cbn [fst snd]. rewrite Hcur, Hclosed.
  assert (Ht : currentTime c = outputClock w).
  { rewrite <- Hclock. unfold outputClock. rewrite Hc. reflexivity. }
  rewrite Ht. repeat split.
Qed.

(** A message that arrives after the teardown is let in by the guard. *)
Lemma guard_passes_after_stop (v : SourceFile) (w : World) (payload : string) :
  wired w = true ->
  truthy (Some payload) = true ->
  let stopped := exec (stopConversation no_faults) w in
  fst (onmessage_begin v (audioOnly payload) stopped) =
    Normal (Some payload) /\
  agentStatus (exec (onmessage_begin v (audioOnly payload)) stopped) =
    Speaking.
Proof.
  intros Hw Hp stopped.
  destruct (stop_keeps_wired w Hw) as (Hws & _).
  fold stopped in Hws. unfold wired in Hws.
  destruct (outputAudioContextRef stopped) as [c|] eqn:Ho; [|discriminate].
  destruct (analyserNodeRef stopped) as [a|] eqn:Ha; [|discriminate].
  unfold onmessage_begin, onmessage_status, audioOnly, exec, bind, read,
    setAgentStatus, write, ret.
  cbn [inputTranscription turnComplete inlineData is_some orb].
  destruct v; cbn [fst snd]; rewrite ?Ho, ?Ha, Hp; cbn; split; reflexivity.
Qed.

(** C3, the code at a stop during a decode.  A session has scheduled one
    payload at clock time two, so that its cursor is past two; a second
    payload arrives and, while its decoding is awaited, the session is
    stopped.  When the decoding settles nothing raises, yet a source is
    started on the closed context and the cursor moves off zero: it is
    neither its value before the stop nor zero. *)
Theorem stop_during_decode_still_schedules :
  let w0 :=
    exec (onmessage part_000 (audioOnly "AAAAAAAA"))
      (clockReads 2 (activeWorld part_000)) in
  let message := audioOnly "AAAAAAAAAAAAAAAA" in
  let stopped :=
    exec (stopConversation no_faults)
      (exec (onmessage_begin part_000 message) w0) in
  let w' := exec (stopDuringDecode part_000 message no_faults) w0 in
  nextStartTimeRef w0 == 2 + (1 # 8000) /\
  nextStartTimeRef stopped == 0 /\
  noOpenClock (outputAudioContextRef stopped) /\
  completes (stopDuringDecode part_000 message no_faults) w0 = true /\
  (exists b,
     decodePayload "AAAAAAAAAAAAAAAA" = Some b /\
     trace w' = trace stopped ++ [source_start closed (Qmax 2 0) b] /\
     nextStartTimeRef w' = Qmax 2 0 + duration b) /\
  nextStartTimeRef w' == 2 + (1 # 4000) /\
  ~ nextStartTimeRef w' == 0 /\
  ~ nextStartTimeRef w' == nextStartTimeRef w0.
Proof.
  split; [vm_compute; reflexivity|].
  split; [vm_compute; reflexivity|].
  split; [vm_compute; reflexivity|].
  split; [vm_compute; reflexivity|].
  split.
  { exists {| samples := map fromInt16 [0; 0; 0; 0; 0; 0]%Z;
              numberOfChannels := 1; sampleRate := 24000 |}.
    split; [vm_compute; reflexivity|].
    split; vm_compute; reflexivity. }
  split; [vm_compute; reflexivity|].
  split; vm_compute; discriminate.
Qed.

End Session.

(* ================================================================== *)
(** * Starting, stopping and what lies between                         *)
(* ================================================================== *)

Module Lifecycle.

Import Audio App Events.

Local Open Scope Q_scope.

Lemma handleToggleSession_cases (f : Faults) (w : World) :
  handleToggleSession f w =
  if isSessionActive w then stopConversation f w
  else startConversation_begin w.
Proof.
  unfold handleToggleSession, bind, read.
  destruct (isSessionActive w); reflexivity.
Qed.

Lemma stop_nothing_present (w : World) (s : Step) :
  present s (exec (stopConversation no_faults) w) = false.
Proof.
  open_world w; destruct s; run; reflexivity.
Qed.

(** X1.  The button inverts the active flag.  Pressed in an active session
    it is the teardown: one call per resource that is there, then Idle and
    cursor zero.  Pressed otherwise it only begins a start: Listening,
    active, the microphone requested, and no teardown call whatever the
    component still holds. *)
Theorem toggle_flips_active (f : Faults) (w : World) :
  completes (handleToggleSession f) w = true ->
  let w' := exec (handleToggleSession f) w in
  isSessionActive w' = negb (isSessionActive w) /\
  (isSessionActive w = true ->
   agentStatus w' = Idle /\
   nextStartTimeRef w' = 0 /\
   trace w' = trace w ++ map Called (attempted w) /\
   forall s, present s w' = false) /\
  (isSessionActive w = false ->
   w' = record getUserMedia
          (set_isSessionActive true (set_agentStatus Listening w))).
Proof.
  unfold completes, exec. rewrite handleToggleSession_cases.
  destruct (isSessionActive w) eqn:Hact; intros H.
  - fold (completes (stopConversation f) w) in H.
    rewrite (Session.stop_completes_no_faults f w H).
    fold (exec (stopConversation no_faults) w).
    destruct (Session.stop_no_faults_fields w)
      as (_ & Ha & Hst & Hcur & _).
    split; [exact Ha|]. split; [|discriminate].
    intros _. split; [exact Hst|]. split; [exact Hcur|].
    split; [apply Session.stop_no_faults_trace|].
    apply stop_nothing_present.
  - split; [reflexivity|]. split; [discriminate|].
    intros _. reflexivity.
Qed.

Lemma toggle_flips_active_witness :
  completes (handleToggleSession no_faults) (activeWorld App_tsx) = true /\
  isSessionActive
    (exec (handleToggleSession no_faults) (activeWorld App_tsx)) = false /\
  completes (handleToggleSession no_faults) initial = true /\
  isSessionActive (exec (handleToggleSession no_faults) initial) = true.
Proof.
  split; [reflexivity|].
  split; [exact (proj1 (toggle_flips_active no_faults
                          (activeWorld App_tsx) eq_refl))|].
  split; [reflexivity|].
  exact (proj1 (toggle_flips_active no_faults initial eq_refl)).
Defined.

(** X2.  Whatever the component held before, a start that runs to its end
    raises nowhere and leaves an active, Listening session in which every
    resource of the teardown is there, the scheduler is wired, both clocks
    run from zero and the cursor is zero. *)
Theorem start_acquires_everything (v : SourceFile) (stream : MediaStream)
  (session : LiveSession) (w : World) :
  let start := startConversation_established v stream session in
  let w' := exec start w in
  completes start w = true /\
  isSessionActive w' = true /\
  agentStatus w' = Listening /\
  nextStartTimeRef w' = 0 /\
  (forall s, present s w' = true) /\
  attempted w' = teardownSteps /\
  wired w' = true /\
  audioContextRef w' = Some (newAudioContext 16000) /\
  outputAudioContextRef w' = Some (newAudioContext 24000) /\
  micStreamRef w' = Some stream /\
  sessionRef w' = Some session /\
  trace w' = trace w ++ [getUserMedia; live_connect (modelFor v)].
Proof.
  destruct w as [act st se mi ac sp ms oc an cur tr].
  unfold startConversation_established. run.
  repeat split; try (intros []; reflexivity).
  rewrite <- app_assoc. reflexivity.
Qed.



(** X4.  A start that fails after the microphone was granted leaves the
    component inactive with the status Error while it still references the
    granted stream and two running clocks; and the next press of the button,
    finding the session inactive, begins another start and makes no teardown
    call, so that the stream and the clocks stay as they are. *)
Theorem failed_connect_is_not_released (v : SourceFile) (f : Faults)
  (stream : MediaStream) (w : World) :
  let w1 := exec (startConversation_unconnected v stream) w in
  let w2 := exec (handleToggleSession f) w1 in
  completes (startConversation_unconnected v stream) w = true /\
  isSessionActive w1 = false /\
  agentStatus w1 = Error /\
  micStreamRef w1 = Some stream /\
  present tracks_stop w1 = true /\
  present audioContext_close w1 = true /\
  present outputAudioContext_close w1 = true /\
  completes (handleToggleSession f) w1 = true /\
  trace w2 = trace w1 ++ [getUserMedia] /\
  micStreamRef w2 = Some stream /\
  audioContextRef w2 = Some (newAudioContext 16000) /\
  outputAudioContextRef w2 = Some (newAudioContext 24000).
Proof.
  destruct w as [act st se mi ac sp ms oc an cur tr].
  run. unfold newAudioContext. run. repeat split.
Qed.



(** X17.  A stop issued while the microphone request is still pending
    finds nothing to tear down and marks the session inactive.  When the
    microphone is granted the start goes on all the same: the component
    ends with the capture stream, both clocks running, the capture nodes and
    the connected session, wired for playback, while it is marked inactive
    with the status Idle; no teardown call was made, and the next press of
    the button begins another start. *)
Theorem stop_while_prompting_still_starts (v : SourceFile)
  (stream : MediaStream) (session : LiveSession) (w : World) :
  attempted w = [] ->
  let race := stopWhilePrompting v no_faults stream session in
  let w' := exec race w in
  completes race w = true /\
  isSessionActive w' = false /\
  agentStatus w' = Idle /\
  (forall s, present s w' = true) /\
  micStreamRef w' = Some stream /\
  sessionRef w' = Some session /\
  audioContextRef w' = Some (newAudioContext 16000) /\
  outputAudioContextRef w' = Some (newAudioContext 24000) /\
  wired w' = true /\
  trace w' = trace w ++ [getUserMedia; live_connect (modelFor v)] /\
  trace (exec (handleToggleSession no_faults) w') =
    trace w' ++ [getUserMedia].
Proof.
  unfold attempted, teardownSteps. open_world w; run; intros Hn;
    try discriminate Hn;
    unfold stopWhilePrompting; run; unfold newAudioContext; run;
    repeat split; try (intros []; reflexivity);
    repeat rewrite <- app_assoc; reflexivity.
Qed.

Lemma stop_while_prompting_still_starts_witness :
  attempted initial = [] /\
  isSessionActive
    (exec (stopWhilePrompting App_tsx no_faults {| active := true |}
             {| model := modelFor App_tsx |}) initial) = false /\
  wired
    (exec (stopWhilePrompting App_tsx no_faults {| active := true |}
             {| model := modelFor App_tsx |}) initial) = true.
Proof.
  split; [reflexivity|].
  pose proof (stop_while_prompting_still_starts App_tsx
                {| active := true |} {| model := modelFor App_tsx |}
                initial eq_refl) as H.
  split; apply H.
Defined.

End Lifecycle.

(* ================================================================== *)
(** * Inbound messages                                                 *)
(* ================================================================== *)

Module Messages.

Import Audio App Events.

Local Open Scope Q_scope.

(** Every shape of world and message that the handler tells apart. *)
Ltac shapes w message :=
  destruct w as [act st se mi ac sp ms oc an cur tr];
  destruct message as [it tc [[|ch rest]|]];
  destruct oc as [c|], an as [a|], it as [[[]]|], tc.

Ltac handler :=
  unfold onmessage, letIn; run;
  try match goal with
      | |- context [decodePayload ?p] => destruct (decodePayload p) eqn:?
      end;
  unfold onmessage_resume; run.

Lemma onmessage_schedules_once_witness :
  wired (clockReads 2 (activeWorld part_000)) = true /\
  agentStatus
    (exec (onmessage part_000 (audioOnly "AAAAAAAA"))
       (clockReads 2 (activeWorld part_000))) = Speaking /\
  nextStartTimeRef
    (exec (onmessage part_000 (audioOnly "AAAAAAAA"))
       (clockReads 2 (activeWorld part_000))) =
  Qmax 2 0 +
  duration {| samples := map fromInt16 [0; 0; 0]%Z;
              numberOfChannels := 1; sampleRate := 24000 |}.
Proof.
  split; [reflexivity|].
  pose proof (Session.onmessage_schedules_once part_000
                (clockReads 2 (activeWorld part_000))
                (audioOnly "AAAAAAAA") "AAAAAAAA"
                {| samples := map fromInt16 [0; 0; 0]%Z;
                   numberOfChannels := 1; sampleRate := 24000 |}
                eq_refl eq_refl eq_refl eq_refl) as (_ & H1 & _ & H2).
  split; [exact H1|exact H2].
Defined.

(** X7.  A message that the guard does not let in (no payload, an empty
    payload, or a component without output context or analyser) raises
    nothing, starts no source and leaves the cursor and every reference
    alone: only the status may change, and not to Speaking. *)
Theorem message_kept_out (v : SourceFile) (message : LiveServerMessage)
  (w : World) :
  letIn message w = false ->
  let w' := exec (onmessage v message) w in
  completes (onmessage v message) w = true /\
  w' = set_agentStatus (agentStatus w') w /\
  trace w' = trace w /\
  nextStartTimeRef w' = nextStartTimeRef w /\
  (agentStatus w' = agentStatus w \/
   agentStatus w' = Listening \/
   agentStatus w' = Thinking).
Proof.
  shapes w message; destruct v; handler;
    intros H; try discriminate H; repeat split; tauto.
Qed.

Lemma message_kept_out_witness :
  letIn (audioOnly EmptyString) (activeWorld App_tsx) = false /\
  exec (onmessage App_tsx (audioOnly EmptyString)) (activeWorld App_tsx) =
  activeWorld App_tsx.
Proof.
  split; [reflexivity|].
  pose proof (message_kept_out App_tsx (audioOnly EmptyString)
                (activeWorld App_tsx) eq_refl) as (_ & H & _).
  exact H.
Defined.

(** X8.  A message that the guard lets in and whose payload does not decode
    makes the handler raise after the status was set to Speaking: the
    status stays Speaking, no source is started and the cursor and the
    references are as before. *)
Theorem undecodable_payload (v : SourceFile) (message : LiveServerMessage)
  (payload : string) (w : World) :
  letIn message w = true ->
  inlineData message = Some payload ->
  decodePayload payload = None ->
  let w' := exec (onmessage v message) w in
  completes (onmessage v message) w = false /\
  agentStatus w' = Speaking /\
  w' = set_agentStatus Speaking w /\
  trace w' = trace w /\
  nextStartTimeRef w' = nextStartTimeRef w.
Proof.
  shapes w message; destruct v; cbn [inlineData];
    intros Hin Hdata Hdec; try discriminate Hdata; try discriminate Hin;
    injection Hdata as <-;
    unfold onmessage; run; rewrite Hdec; repeat split.
Qed.

Lemma undecodable_payload_witness :
  letIn (audioOnly "A") (activeWorld part_000) = true /\
  decodePayload "A" = None /\
  completes (onmessage part_000 (audioOnly "A")) (activeWorld part_000)
  = false /\
  agentStatus
    (exec (onmessage part_000 (audioOnly "A")) (activeWorld part_000))
  = Speaking.
Proof.
  split; [reflexivity|]. split; [reflexivity|].
  pose proof (undecodable_payload part_000 (audioOnly "A") "A"
                (activeWorld part_000) eq_refl eq_refl eq_refl)
    as (H1 & H2 & _).
  split; [exact H1|exact H2].
Defined.

(** X9.  The order of the handler's tests decides between the signals of
    one message: inline audio that the guard lets in ends at Speaking,
    whatever else the message carries and whether or not the payload
    decodes; failing that, the turn-complete flag ends at Listening in both
    variants; and a message with none of the three leaves the world as it
    is. *)
Theorem status_precedence (v : SourceFile) (message : LiveServerMessage)
  (w : World) :
  let w' := exec (onmessage v message) w in
  (letIn message w = true -> agentStatus w' = Speaking) /\
  (letIn message w = false -> turnComplete message = true ->
   agentStatus w' = Listening) /\
  (letIn message w = false -> turnComplete message = false ->
   inputTranscription message = None -> w' = w).
Proof.
  shapes w message; destruct v; handler;
    repeat split; intros; try reflexivity; discriminate.
Qed.

(** X10.  Whatever the message and whether or not the handler raises, it
    leaves the active flag and all seven references as they are: a message
    neither starts nor stops a session, and neither sets nor clears what the
    guard tests. *)
Theorem onmessage_keeps_resources (v : SourceFile)
  (message : LiveServerMessage) (w : World) :
  sameResources w (exec (onmessage v message) w).
Proof.
  unfold sameResources.
  shapes w message; destruct v; handler; repeat split.
Qed.

End Messages.

(* ================================================================== *)
(** * What every run keeps                                             *)
(* ================================================================== *)

Module Invariants.

Import Audio App Events.

Local Open Scope Q_scope.

(** A property that each part of a sequence keeps is kept by the sequence,
    whether or not a part raises. *)
Lemma preserved_bind {A B} (P : World -> Prop) (m : M A) (k : A -> M B) :
  (forall w, P w -> P (exec m w)) ->
  (forall a w, P w -> P (exec (k a) w)) ->
  forall w, P w -> P (exec (bind m k) w).
Proof.
  unfold exec, bind. intros Hm Hk w Hw.
  specialize (Hm w Hw).
  destruct (m w) as [[a|] w1]; cbn [snd] in *.
  - apply Hk. exact Hm.
  - exact Hm.
Qed.

Lemma after_app (v : SourceFile) (f : Faults) (es es' : list Event)
  (w : World) :
  after v f (es ++ es') w = after v f es' (after v f es w).
Proof.
  revert w. induction es as [|e es IH]; intros w; [reflexivity|].
  cbn [app after]. apply IH.
Qed.

(** ** The scheduler's references *)

Ltac block :=
  let w := fresh "w" in
  intros w; unfold isWired;
  destruct w as [act st se mi ac sp ms oc an cur tr];
  run; cases; try (intros; assumption); try (intros; discriminate).

Lemma stop_keeps_wired_any (f : Faults) (w : World) :
  isWired w -> isWired (exec (stopConversation f) w).
Proof.
  revert w. unfold stopConversation.
  do 8 (apply preserved_bind; [block | intros []]).
  block.
Qed.

Lemma handle_keeps_wired (v : SourceFile) (f : Faults) (e : Event)
  (w : World) :
  isWired w -> isWired (exec (handle v f e) w).
Proof.
  destruct e; cbn [handle].
  - revert w. unfold handleToggleSession.
    apply preserved_bind; [block|].
    intros [] w Hw; [apply stop_keeps_wired_any; exact Hw|].
    revert w Hw. block.
  - revert w. block.
  - revert w. block.
  - revert w. block.
  - revert w. block.
  - revert w. block.
  - revert w. unfold isWired.
    destruct message as [it tc [[|ch rest]|]];
      intros w; destruct w as [act st se mi ac sp ms oc an cur tr];
      destruct oc, an, it as [[[]]|], tc, v; run;
      intros H; try discriminate H; reflexivity.
  - revert w. unfold isWired, onmessage_resume.
    intros w; destruct w as [act st se mi ac sp ms oc an cur tr];
      destruct oc, an; run; intros H; try discriminate H; reflexivity.
  - revert w. unfold onerror.
    apply preserved_bind; [block|].
    intros [] w Hw. apply stop_keeps_wired_any; exact Hw.
  - intros Hw. apply stop_keeps_wired_any; exact Hw.
  - revert w. unfold onaudioprocess. block.
  - revert w. unfold onaudioprocess_then. block.
  - revert w. unfold isWired, clockReads.
    intros w; destruct w as [act st se mi ac sp ms oc an cur tr];
      destruct oc, an; run; intros H; try discriminate H; reflexivity.
  - intros Hw. apply stop_keeps_wired_any; exact Hw.
Qed.

(** X12.  No handler clears the output context or the analyser reference,
    the teardown included, even one cut short by a call that raises: once
    they are set, every later world has them set, and the guard of
    [onmessage] lets in exactly the messages with a non-empty payload. *)
Theorem once_wired_always_wired (v : SourceFile) (f : Faults)
  (es : list Event) (w : World) :
  wired w = true ->
  wired (after v f es w) = true /\
  forall message,
    letIn message (after v f es w) = truthy (inlineData message).
Proof.
  intros Hw.
  assert (H : isWired (after v f es w)).
  { revert w Hw. induction es as [|e es IH]; intros w Hw; [exact Hw|].
    cbn [after]. apply IH. apply handle_keeps_wired. exact Hw. }
  split; [exact H|].
  intros message. unfold letIn. rewrite H. apply andb_true_r.
Qed.

Lemma once_wired_always_wired_witness :
  wired (activeWorld App_tsx) = true /\
  wired (after App_tsx sessionCloseRaises
           [streamError; click; unmounted; clockAdvanced 5; streamClosed]
           (activeWorld App_tsx)) = true.
Proof.
  split; [reflexivity|].
  exact (proj1 (once_wired_always_wired App_tsx sessionCloseRaises
                  [streamError; click; unmounted; clockAdvanced 5;
                   streamClosed]
                  (activeWorld App_tsx) eq_refl)).
Defined.

(** ** The active flag and the status *)

Lemma handle_keeps_conversing (v : SourceFile) (e : Event) (w : World) :
  activeIsConversing w = true ->
  activeIsConversing (exec (handle v no_faults e) w) = true.
Proof.
  assert (Hstop : forall w0,
             activeIsConversing (exec (stopConversation no_faults) w0)
             = true).
  { intros w0. unfold activeIsConversing.
    destruct (Session.stop_no_faults_fields w0) as (_ & -> & _).
    reflexivity. }
  destruct e; cbn [handle]; try (intros _; apply Hstop).
  - unfold exec. rewrite Lifecycle.handleToggleSession_cases.
    destruct (isSessionActive w) eqn:Ha; intros H.
    + apply Hstop.
    + reflexivity.
  - destruct w; intros H; exact H.
  - destruct w as [[] ? ? ? ? ? ? ? ? ? ?]; intros H; reflexivity.
  - unfold activeIsConversing.
    destruct w as [act st se mi ac sp ms oc an cur tr];
      destruct ac; run; intros H; exact H.
  - destruct w; intros H; exact H.
  - destruct w as [[] ? ? ? ? ? ? ? ? ? ?]; intros H; reflexivity.
  - unfold activeIsConversing.
    destruct message as [it tc [[|ch rest]|]];
      destruct w as [act st se mi ac sp ms oc an cur tr];
      destruct oc, an, it as [[[]]|], tc, v; run;
      intros H; try exact H; destruct act; reflexivity.
  - unfold activeIsConversing, onmessage_resume.
    destruct w as [act st se mi ac sp ms oc an cur tr];
      destruct oc, an; run; intros H; exact H.
  - destruct w; intros H; exact H.
  - destruct w; intros H; exact H.
  - unfold activeIsConversing, clockReads.
    destruct w as [act st se mi ac sp ms oc an cur tr];
      destruct oc; run; intros H; exact H.
Qed.

(** X11.  When no teardown call raises, every run of the component keeps
    this, which holds of the mounted component: while the session is marked
    active, the status is Listening, Thinking or Speaking, never Idle and
    never Error. *)
Theorem active_means_conversing (v : SourceFile) (es : list Event)
  (w : World) :
  activeIsConversing w = true ->
  activeIsConversing (after v no_faults es w) = true.
Proof.
  revert w. induction es as [|e es IH]; intros w Hw; [exact Hw|].
  cbn [after]. apply IH. apply handle_keeps_conversing. exact Hw.
Qed.

Lemma active_means_conversing_witness :
  activeIsConversing initial = true /\
  activeIsConversing
    (after part_000 no_faults
       [click; microphoneGranted {| active := true |}; streamOpened;
        sessionConnected {| model := modelFor part_000 |};
        messageArrived (transcriptionOnly true); streamError; click;
        microphoneDenied]
       initial) = true.
Proof.
  split; [reflexivity|].
  exact (active_means_conversing part_000
           [click; microphoneGranted {| active := true |}; streamOpened;
            sessionConnected {| model := modelFor part_000 |};
            messageArrived (transcriptionOnly true); streamError; click;
            microphoneDenied]
           initial eq_refl).
Defined.

End Invariants.

(* ================================================================== *)
(** * What is drawn: facts                                             *)
(* ================================================================== *)

Module ViewFacts.

Import App View.

(** ** Status line and captions *)

(** X13.  In part_000 the colour class and the displayed text each tell the
    five statuses apart: two statuses get the same colour, or the same text,
    only when they are the same status. *)
Theorem status_is_legible (a b : AgentStatus) :
  String.eqb (getStatusColor a) (getStatusColor b) = status_eqb a b /\
  String.eqb (statusText a) (statusText b) = status_eqb a b.
Proof.
  destruct a, b; split; reflexivity.
Qed.

(** X14.  In App.tsx every status has exactly one caption on screen, the
    caption reads "Connection Error" for the status Error and for no other,
    and the paragraph that is made transparent for Idle is then empty. *)
Theorem one_caption_per_status (s : AgentStatus) :
  exists text,
    captions s = [text] /\
    (text = "Connection Error"%string <-> s = Error) /\
    (captionOpaque s = false ->
     text = "Ready to converse in Urdu & English"%string).
Proof.
  destruct s; eexists; (split; [reflexivity|]);
    split; try (split; intros; (reflexivity || discriminate));
    intros; (reflexivity || discriminate).
Qed.

Local Open Scope Q_scope.

(** ** The orb *)

Lemma inject_Z_le (a b : Z) : (a <= b)%Z -> inject_Z a <= inject_Z b.
Proof. intros H. rewrite <- Zle_Qle. exact H. Qed.

Lemma dataIndex_bounds (bufferLength i : Z) :
  (0 <= i <= 100)%Z -> (0 <= bufferLength)%Z ->
  (0 <= dataIndex bufferLength i <= bufferLength / 2)%Z.
Proof.
  intros Hi HL. unfold dataIndex.
  set (x := (inject_Z i / 100) * (inject_Z bufferLength / 2)).
  assert (Hi0 : 0 <= inject_Z i) by (apply (inject_Z_le 0 i); lia).
  assert (Hi1 : inject_Z i <= 100)
    by (apply (inject_Z_le i 100); lia).
  assert (HL0 : 0 <= inject_Z bufferLength)
    by (apply (inject_Z_le 0 bufferLength); lia).
  assert (Hx0 : 0 <= x).
  { unfold x, Qdiv. change (/ 100) with (1 # 100).
    change (/ 2) with (1 # 2). nra. }
  assert (Hx1 : x <= inject_Z bufferLength / inject_Z 2).
  { unfold x, Qdiv. change (/ 100) with (1 # 100).
    change (/ inject_Z 2) with (1 # 2). change (/ 2) with (1 # 2). nra. }
  split.
  - change 0%Z with (Qfloor 0). apply Qfloor_resp_le. exact Hx0.
  - rewrite Zdiv_Qdiv. apply Qfloor_resp_le. exact Hx1.
Qed.

Lemma valueAt_byte (dataArray : list Z) (index : Z) :
  Forall isByte dataArray -> isByte (valueAt dataArray index).
Proof.
  intros Hb. unfold valueAt.
  destruct (index <? 0)%Z; [unfold isByte; lia|].
  destruct (nth_in_or_default (Z.to_nat index) dataArray 0%Z) as [Hin | Heq].
  - rewrite Forall_forall in Hb. apply Hb. exact Hin.
  - rewrite Heq. unfold isByte; lia.
Qed.

(** X15.  For each of the 101 points of the orb's outline the spectrum
    index is a place of the lower half of the data array, never outside the
    array when it has a bin at all; and the offset it gives while the agent
    speaks lies between zero and half the base radius. *)
Theorem orb_reads_in_range (dataArray : list Z) (i : Z) (baseRadius : Q) :
  (0 <= i <= 100)%Z ->
  Forall isByte dataArray ->
  0 <= baseRadius ->
  let bufferLength := Z.of_nat (List.length dataArray) in
  (0 <= dataIndex bufferLength i <= bufferLength / 2)%Z /\
  (dataArray <> [] -> (dataIndex bufferLength i < bufferLength)%Z) /\
  (dataArray = [] -> speakingOffset dataArray bufferLength i baseRadius == 0) /\
  0 <= speakingOffset dataArray bufferLength i baseRadius /\
  speakingOffset dataArray bufferLength i baseRadius <= baseRadius * (1 # 2).
Proof.
  intros Hi Hb Hr bufferLength.
  assert (HL : (0 <= bufferLength)%Z) by (unfold bufferLength; lia).
  pose proof (dataIndex_bounds bufferLength i Hi HL) as Hidx.
  pose proof (valueAt_byte dataArray (dataIndex bufferLength i) Hb) as Hv.
  split; [exact Hidx|].
  split.
  { intros Hne.
    assert ((0 < bufferLength)%Z).
    { unfold bufferLength. destruct dataArray; [congruence|]. cbn. lia. }
    apply Z.le_lt_trans with (bufferLength / 2)%Z; [apply Hidx|].
    apply Z.div_lt; lia. }
  split.
  { intros ->. unfold speakingOffset, valueAt.
    destruct (dataIndex _ i <? 0)%Z;
      [|destruct (Z.to_nat _)]; cbn; reflexivity. }
  unfold speakingOffset.
  set (value := valueAt dataArray (dataIndex bufferLength i)) in *.
  destruct Hv as [Hv0 Hv1].
  assert (H0 : 0 <= inject_Z value)
    by (apply (inject_Z_le 0 value); lia).
  assert (H1 : inject_Z value <= 255)
    by (apply (inject_Z_le value 255); lia).
  unfold Qdiv. change (/ 255) with (1 # 255).
  split; nra.
Qed.

Lemma orb_reads_in_range_witness :
  Forall isByte [0; 255; 17; 200]%Z /\
  (dataIndex (Z.of_nat (List.length [0; 255; 17; 200]%Z)) 75 <
   Z.of_nat (List.length [0; 255; 17; 200]%Z))%Z.
Proof.
  assert (Hb : Forall isByte [0; 255; 17; 200]%Z)
    by (repeat constructor; unfold isByte; lia).
  split; [exact Hb|].
  refine (proj1 (proj2 (orb_reads_in_range [0; 255; 17; 200]%Z 75 100
                          _ Hb _)) _).
  - lia.
  - discriminate.
  - discriminate.
Defined.

(** ** The bars *)

(** The loop, bar by bar: where it stands and which byte and index it was
    drawn from. *)
Lemma barsFrom_nth (canvasHeight barWidth : Q) (bufferLength : Z)
  (data : list Z) :
  forall (i : Z) (x : Q) (k : nat) (bar : Bar),
  nth_error (barsFrom canvasHeight barWidth bufferLength i x data) k
  = Some bar ->
  exists barHeight,
    nth_error data k = Some barHeight /\
    left bar == x + inject_Z (Z.of_nat k) * (barWidth + 1) /\
    width bar = barWidth /\
    top bar = canvasHeight - inject_Z barHeight / 2 /\
    height bar = inject_Z barHeight / 2 /\
    red bar = 50 /\
    green bar =
      250 * (inject_Z (i + Z.of_nat k) / inject_Z bufferLength) /\
    blue bar =
      inject_Z barHeight +
      25 * (inject_Z (i + Z.of_nat k) / inject_Z bufferLength).
Proof.
  induction data as [|h rest IH]; intros i x k bar Hk.
  - destruct k; discriminate.
  - destruct k as [|k].
    + cbn in Hk. injection Hk as <-. exists h. cbn [nth_error].
      split; [reflexivity|]. cbn [left width top height red green blue].
      rewrite Z.add_0_r. repeat split. cbn [Z.of_nat]. ring.
    + cbn [barsFrom nth_error] in Hk.
      destruct (IH _ _ _ _ Hk)
        as (bh & Hn & Hl & Hw & Ht & Hh & Hr & Hg & Hb).
      exists bh. cbn [nth_error]. split; [exact Hn|].
      replace (i + Z.of_nat (S k))%Z with (i + 1 + Z.of_nat k)%Z by lia.
      split.
      { rewrite Hl. rewrite Nat2Z.inj_succ. unfold Z.succ.
        rewrite inject_Z_plus. change (inject_Z 1) with 1. ring. }
      repeat split; assumption.
Qed.

(** A fraction of integers, compared with a fraction of numerals. *)
Lemma ratio_ge (k n : Z) :
  (0 < n)%Z -> (2 * n <= 5 * k)%Z -> 2 # 5 <= inject_Z k / inject_Z n.
Proof.
  intros Hn H. destruct n as [|p|p]; try lia.
  unfold Qdiv, Qinv, Qmult, Qle, inject_Z. cbn. lia.
Qed.

Lemma ratio_range (k n : Z) :
  (0 <= k < n)%Z ->
  0 <= inject_Z k / inject_Z n /\ inject_Z k / inject_Z n < 1.
Proof.
  intros H. destruct n as [|p|p]; try lia.
  unfold Qdiv, Qinv, Qmult, Qle, Qlt, inject_Z. cbn. lia.
Qed.

(** X16.  In part_000 the bar for bin [k] of the spectrum stands at
    [k * (barWidth + 1)] with its base on the bottom edge of the canvas, its
    red is 50, its green lies in [0, 250) and its blue in
    [barHeight, barHeight + 25); and since a bar is two and a half times as
    wide as an even share of the canvas, every bar from bin
    two fifths of the bin count on starts at or beyond the right edge. *)
Theorem bars_layout (canvasWidth canvasHeight : Q) (dataArray : list Z)
  (k : nat) (bar : Bar) :
  0 <= canvasWidth ->
  nth_error (bars canvasWidth canvasHeight dataArray) k = Some bar ->
  let bufferLength := Z.of_nat (List.length dataArray) in
  let barWidth := barWidthOf canvasWidth bufferLength in
  exists barHeight,
    nth_error dataArray k = Some barHeight /\
    left bar == inject_Z (Z.of_nat k) * (barWidth + 1) /\
    width bar = barWidth /\
    top bar + height bar == canvasHeight /\
    red bar = 50 /\
    (0 <= green bar /\ green bar < 250) /\
    (inject_Z barHeight <= blue bar /\ blue bar < inject_Z barHeight + 25) /\
    ((2 * bufferLength <= 5 * Z.of_nat k)%Z -> canvasWidth <= left bar).
Proof.
  intros HW Hk bufferLength barWidth.
  unfold bars in Hk. fold bufferLength in Hk. fold barWidth in Hk.
  destruct (barsFrom_nth _ _ _ _ _ _ _ _ Hk)
    as (bh & Hn & Hl & Hw & Ht & Hh & Hr & Hg & Hb).
  assert (Hlt : (0 <= Z.of_nat k < bufferLength)%Z).
  { unfold bufferLength. split; [lia|].
    apply Nat2Z.inj_lt. apply nth_error_Some. congruence. }
  cbn [Z.add] in Hg, Hb.
  destruct (ratio_range (Z.of_nat k) bufferLength Hlt) as [Hr0 Hr1].
  exists bh. split; [exact Hn|].
  split; [rewrite Hl; ring|].
  split; [exact Hw|].
  split; [rewrite Ht, Hh; ring|].
  split; [exact Hr|].
  split; [rewrite Hg; split; lra|].
  split; [rewrite Hb; split; lra|].
  intros Hfar.
  assert (Hratio : 2 # 5 <= inject_Z (Z.of_nat k) / inject_Z bufferLength)
    by (apply ratio_ge; lia).
  assert (Hk0 : 0 <= inject_Z (Z.of_nat k))
    by (apply (inject_Z_le 0 (Z.of_nat k)); lia).
  rewrite Hl.
  assert (E : inject_Z (Z.of_nat k) * barWidth ==
              canvasWidth * (25 # 10) *
              (inject_Z (Z.of_nat k) / inject_Z bufferLength)).
  { unfold barWidth, barWidthOf, Qdiv. ring. }
  set (r := inject_Z (Z.of_nat k) / inject_Z bufferLength) in *.
  set (q := inject_Z (Z.of_nat k)) in *.
  nra.
Qed.

Lemma bars_layout_witness :
  nth_error (bars 300 150 [10; 20; 30; 40; 50]%Z) 2 =
    Some {| left := 0 + (300 / inject_Z 5 * (25 # 10)) + 1
                      + (300 / inject_Z 5 * (25 # 10)) + 1;
            top := 150 - inject_Z 30 / 2;
            width := 300 / inject_Z 5 * (25 # 10);
            height := inject_Z 30 / 2;
            red := 50;
            green := 250 * (inject_Z (0 + 1 + 1) / inject_Z 5);
            blue := inject_Z 30 + 25 * (inject_Z (0 + 1 + 1) / inject_Z 5) |} /\
  exists barHeight,
    nth_error [10; 20; 30; 40; 50]%Z 2 = Some barHeight /\
    300 <= 0 + (300 / inject_Z 5 * (25 # 10)) + 1
             + (300 / inject_Z 5 * (25 # 10)) + 1.
Proof.
  split; [reflexivity|].
  destruct (bars_layout 300 150 [10; 20; 30; 40; 50]%Z 2 _
              ltac:(discriminate) eq_refl)
    as (bh & Hn & _ & _ & _ & _ & _ & _ & Hfar).
  exists bh. split; [exact Hn|]. apply Hfar. cbn. lia.
Defined.

End ViewFacts.
